(** * regex.py: a regular-expression finite state machine

    A shallow embedding of [src/regex.py].  The Python program builds a graph
    of mutable state objects ([next_states] is appended to and reassigned
    while the pattern is scanned) and then runs all active states at once
    over the input.

    Modelling choices, all taken from the source:
    - objects live in a store (a list indexed by allocation order); a
      reference is an index, and Python's identity comparison [s != prev]
      is comparison of references;
    - the class of an object and the fields set once in [__init__]
      ([curr_sym], [char_ranges], [individual_chars], [negated],
      [checking_state]) are the immutable part [cls]; [next_states] is the
      mutable part.  [check_self] reads the immutable part only, so
      [checking_state] holds the class data of the wrapped object;
    - characters are [ascii] and [ord] is [nat_of_ascii];
    - a Python [set] is a [gset]; iterating over one ([for x in s],
      [list(s)]) visits its elements in an order that depends on the hash
      of the objects, i.e. on their addresses: the order is a parameter
      [set_order] of every function that iterates over a set;
    - every [while] loop takes fuel and answers [OutOfFuel] when it is
      spent; the theorems show that this never happens with the fuel the
      entry points supply;
    - [raise ValueError(msg)] is the outcome [Raise (ValueError msg)]. *)

From Stdlib Require Import Ascii.
From Stdlib Require String.
From stdpp Require Import gmap strings list.

(** ** Outcomes of a call *)

Inductive exn : Type :=
| ValueError (msg : string).

Inductive outcome (A : Type) : Type :=
| Return (a : A)
| Raise (e : exn)
| OutOfFuel.

Arguments Return {A} a.
Arguments Raise {A} e.
Arguments OutOfFuel {A}.

Global Instance outcome_ret : MRet outcome := λ A a, Return a.

Global Instance outcome_bind : MBind outcome := λ A B f m,
  match m with
  | Return a => f a
  | Raise e => Raise e
  | OutOfFuel => OutOfFuel
  end.

(** ** The state classes *)

Abbreviation ref := nat (only parsing).

Definition ord (c : ascii) : nat := nat_of_ascii c.

Inductive state : Type :=
| StartState
| TerminationState
| DotState
| AsciiState (curr_sym : ascii)
| CharacterClassState (char_ranges : list (ascii * ascii))
                      (individual_chars : gset ascii) (negated : bool)
| StarState (checking_state : state)
| PlusState (checking_state : state).

Definition in_range (char : ascii) (r : ascii * ascii) : bool :=
  (ord (fst r) <=? ord char)%nat && (ord char <=? ord (snd r))%nat.

Fixpoint check_self (s : state) (char : ascii) : bool :=
  match s with
  | StartState => false
  | TerminationState => false
  | DotState => true
  | AsciiState curr_sym => bool_decide (curr_sym = char)
  | CharacterClassState char_ranges individual_chars negated =>
      let in_class := existsb (in_range char) char_ranges in
      let in_class :=
        if negb in_class then bool_decide (char ∈ individual_chars)
        else in_class in
      if negated then negb in_class else in_class
  | StarState checking_state => check_self checking_state char
  | PlusState checking_state => check_self checking_state char
  end.

Definition is_StarState (s : state) : bool :=
  match s with StarState _ => true | _ => false end.

Definition is_TerminationState (s : state) : bool :=
  match s with TerminationState => true | _ => false end.

(** ** CharacterClassState.__init__ *)

(** The [while i < len(class_spec)] loop of the constructor. *)
Fixpoint class_loop (fuel : nat) (class_spec : list ascii) (i : nat)
    (char_ranges : list (ascii * ascii)) (individual_chars : gset ascii)
    : outcome (list (ascii * ascii) * gset ascii) :=
  match fuel with
  | O => OutOfFuel
  | S fuel =>
      match class_spec !! i with
      | None => Return (char_ranges, individual_chars)
      | Some c =>
          match class_spec !! (i + 2) with
          | Some e =>
              (* i + 2 < len(class_spec) *)
              if bool_decide (class_spec !! (i + 1) = Some "-"%char) then
                class_loop fuel class_spec (i + 3)
                  (char_ranges ++ [(c, e)]) individual_chars
              else
                class_loop fuel class_spec (i + 1)
                  char_ranges ({[c]} ∪ individual_chars)
          | None =>
              class_loop fuel class_spec (i + 1)
                char_ranges ({[c]} ∪ individual_chars)
          end
      end
  end.

Definition CharacterClassState_init_fuel (fuel : nat)
    (class_spec : list ascii) : outcome state :=
  let '(negated, class_spec) :=
    if bool_decide (class_spec ≠ [])
       && bool_decide (class_spec !! 0 = Some "^"%char)
    then (true, drop 1 class_spec) else (false, class_spec) in
  '(char_ranges, individual_chars) ← class_loop fuel class_spec 0 [] ∅;
  mret (CharacterClassState char_ranges individual_chars negated).

Definition CharacterClassState_init (class_spec : list ascii) : outcome state :=
  CharacterClassState_init_fuel (S (length class_spec)) class_spec.

(** ** The object store *)

Record object : Type := Object { cls : state; next_states : list ref }.

(** A reference is read in the store with [h !!! r].  No Python run reads a
    reference that was not allocated; the model answers an object without
    successors there. *)
Global Instance object_inhabited : Inhabited object :=
  populate (Object StartState []).

Abbreviation heap := (list object) (only parsing).

(** Allocation of a fresh object, every constructor starting with
    [self.next_states = []]. *)
Definition new (h : heap) (c : state) : heap * ref :=
  (h ++ [Object c []], length h).

Definition set_next_states (ns : list ref) (o : object) : object :=
  Object (cls o) ns.

(** [r.next_states.append(x)] *)
Definition append_next (h : heap) (r x : ref) : heap :=
  alter (λ o, set_next_states (next_states o ++ [x]) o) r h.

(** [r.next_states = [s for s in r.next_states if s != x]] *)
Definition remove_next (h : heap) (r x : ref) : heap :=
  alter (λ o, set_next_states (filter (λ s, s ≠ x) (next_states o)) o) r h.

(** ** RegexFSM.__init__ *)

Record RegexFSM : Type := { objects : heap; start_state : ref }.

(** [while j < len(regex_expr) and regex_expr[j] != ']': j += 1] *)
Fixpoint scan_loop (fuel : nat) (regex_expr : list ascii) (j : nat)
    : outcome nat :=
  match fuel with
  | O => OutOfFuel
  | S fuel =>
      match regex_expr !! j with
      | None => Return j
      | Some c =>
          if bool_decide (c ≠ "]"%char) then scan_loop fuel regex_expr (j + 1)
          else Return j
      end
  end.

(** [states[-k]], read only where the source has checked the length. *)
Definition from_end (states : list ref) (k : nat) : ref :=
  states !!! (length states - k).

(** The two quantifier branches differ in the class of the new object only. *)
Definition quantify (wrap : state → state) (start_state : ref)
    (h : heap) (states : list ref) : heap * list ref :=
  let prev_state := from_end states 1 in
  let '(h, q_state) := new h (wrap (cls (h !!! prev_state))) in
  let parent :=
    if bool_decide (2 ≤ length states) then from_end states 2
    else start_state in
  let h := remove_next h parent prev_state in
  let h := append_next h parent q_state in
  let h := append_next h q_state q_state in
  (h, <[length states - 1 := q_state]> states).

(** The [parent.next_states.append(x); states.append(x)] of the last two
    branches. *)
Definition link (start_state : ref) (h : heap) (states : list ref)
    (c : state) : heap * list ref :=
  let '(h, new_state) := new h c in
  let parent :=
    if bool_decide (states ≠ []) then from_end states 1 else start_state in
  (append_next h parent new_state, states ++ [new_state]).

(** One iteration of the main loop: the body of
    [while i < len(regex_expr)] on [char = regex_expr[i]].  It answers the
    new store, the new [states] and the index of the next iteration
    ([i + 1], or [j + 1] after the [continue] of the bracket branch).
    [gas] is the fuel handed to the inner scan. *)
Definition init_body (gas : nat) (regex_expr : list ascii)
    (start_state : ref) (h : heap) (states : list ref) (i : nat)
    (char : ascii) : outcome (heap * list ref * nat) :=
  if bool_decide (char = "*"%char) && bool_decide (states ≠ []) then
    let '(h, states) := quantify StarState start_state h states in
    Return (h, states, i + 1)
  else if bool_decide (char = "+"%char) && bool_decide (states ≠ []) then
    let '(h, states) := quantify PlusState start_state h states in
    Return (h, states, i + 1)
  else if bool_decide (char = "["%char) then
    j ← scan_loop gas regex_expr (i + 1);
    if bool_decide (length regex_expr ≤ j) then
      Raise (ValueError "Unclosed character class")
    else
      let class_spec := take (j - (i + 1)) (drop (i + 1) regex_expr) in
      class_state ← CharacterClassState_init class_spec;
      let '(h, states) := link start_state h states class_state in
      Return (h, states, j + 1)
  else
    let new_state :=
      if bool_decide (char = "."%char) then DotState else AsciiState char in
    let '(h, states) := link start_state h states new_state in
    Return (h, states, i + 1).

(** The main [while i < len(regex_expr)] loop. *)
Fixpoint init_loop (fuel gas : nat) (regex_expr : list ascii)
    (start_state : ref) (h : heap) (states : list ref) (i : nat)
    : outcome (heap * list ref) :=
  match fuel with
  | O => OutOfFuel
  | S fuel =>
      match regex_expr !! i with
      | None => Return (h, states)
      | Some char =>
          '(h, states, i) ←
            init_body gas regex_expr start_state h states i char;
          init_loop fuel gas regex_expr start_state h states i
      end
  end.

Definition RegexFSM_init_fuel (fuel : nat) (regex_expr : string)
    : outcome RegexFSM :=
  let regex_expr := String.list_ascii_of_string regex_expr in
  let '(h, start_state) := new [] StartState in
  if bool_decide (regex_expr = []) then
    Raise (ValueError "Empty regex pattern")
  else if bool_decide (regex_expr = ["*"%char])
          || bool_decide (regex_expr !! 0 = Some "*"%char) then
    Raise (ValueError "'*' cannot be used without a preceding character")
  else if bool_decide (regex_expr = ["+"%char])
          || bool_decide (regex_expr !! 0 = Some "+"%char) then
    Raise (ValueError "'+' cannot be used without a preceding character")
  else
    '(h, states) ← init_loop fuel fuel regex_expr start_state h [] 0;
    let '(h, term_state) := new h TerminationState in
    let h :=
      if bool_decide (states ≠ []) then
        append_next h (from_end states 1) term_state
      else append_next h start_state term_state in
    mret {| objects := h; start_state := start_state |}.

(** The loop index grows with every iteration and stops at the length of
    the pattern: one more unit of fuel than the pattern has characters is
    enough (see [RegexFSM_init_fuel_enough]). *)
Definition RegexFSM_init (regex_expr : string) : outcome RegexFSM :=
  RegexFSM_init_fuel (S (String.length regex_expr)) regex_expr.

(** ** RegexFSM.check_string and its two searches *)

Section Matcher.

(** The order in which Python iterates over a set of state objects, given
    as a rearrangement of the canonical enumeration [elements]. *)
Variable set_order : list ref → list ref.

Definition iterate (s : gset ref) : list ref := set_order (elements s).

(** First [for] loop of [_add_epsilon_transitions], run for a [StarState]
    only: the body for one [next_state]. *)
Definition self_loop_step (state : ref) (visited : gset ref)
    (acc : gset ref * list ref) (next_state : ref) : gset ref * list ref :=
  let '(res, worklist) := acc in
  if bool_decide (next_state = state) && bool_decide (next_state ∉ res) then
    ({[next_state]} ∪ res,
     if bool_decide (next_state ∉ visited) then worklist ++ [next_state]
     else worklist)
  else acc.

(** Second [for] loop of [_add_epsilon_transitions]: the body for one
    [next_state]. *)
Definition star_succ_step (h : heap) (visited : gset ref)
    (acc : gset ref * list ref) (next_state : ref) : gset ref * list ref :=
  let '(res, worklist) := acc in
  if is_StarState (cls (h !!! next_state))
     && bool_decide (next_state ∉ visited) then
    ({[next_state]} ∪ res, worklist ++ [next_state])
  else acc.

(** [while worklist:] of [_add_epsilon_transitions]. *)
Fixpoint epsilon_loop (fuel : nat) (h : heap) (res : gset ref)
    (worklist : list ref) (visited : gset ref) : outcome (gset ref) :=
  match fuel with
  | O => OutOfFuel
  | S fuel =>
      match worklist with
      | [] => Return res
      | state :: worklist =>
          if bool_decide (state ∈ visited) then
            epsilon_loop fuel h res worklist visited
          else
            let visited := {[state]} ∪ visited in
            let '(res, worklist) :=
              if is_StarState (cls (h !!! state)) then
                foldl (self_loop_step state visited) (res, worklist)
                      (next_states (h !!! state))
              else (res, worklist) in
            let '(res, worklist) :=
              foldl (star_succ_step h visited) (res, worklist)
                    (next_states (h !!! state)) in
            epsilon_loop fuel h res worklist visited
      end
  end.

Definition _add_epsilon_transitions (fuel : nat) (h : heap)
    (states : gset ref) : outcome (gset ref) :=
  epsilon_loop fuel h states (iterate states) ∅.

(** The [for] loop of [_can_terminate_without_input]: the body for one
    [next_state]. *)
Definition enqueue_step (h : heap) (visited : gset ref)
    (queue : list ref) (next_state : ref) : list ref :=
  if is_StarState (cls (h !!! next_state))
     && bool_decide (next_state ∉ visited) then queue ++ [next_state]
  else queue.

(** [while queue:] of [_can_terminate_without_input]. *)
Fixpoint terminate_loop (fuel : nat) (h : heap) (queue : list ref)
    (visited : gset ref) : outcome bool :=
  match fuel with
  | O => OutOfFuel
  | S fuel =>
      match queue with
      | [] => Return false
      | state :: queue =>
          if bool_decide (state ∈ visited) then
            terminate_loop fuel h queue visited
          else
            let visited := {[state]} ∪ visited in
            if existsb (λ s, is_TerminationState (cls (h !!! s)))
                       (next_states (h !!! state))
            then Return true
            else
              terminate_loop fuel h
                (foldl (enqueue_step h visited) queue
                       (next_states (h !!! state)))
                visited
      end
  end.

Definition _can_terminate_without_input (fuel : nat) (h : heap)
    (states : gset ref) : outcome bool :=
  terminate_loop fuel h (iterate states) ∅.

(** The two nested [for] loops of [check_string] that collect the
    successors accepting [char]. *)
Definition accepting_successors (h : heap) (char : ascii)
    (acc : gset ref) (state : ref) : gset ref :=
  foldl (λ acc next_state,
           if check_self (cls (h !!! next_state)) char
           then {[next_state]} ∪ acc else acc)
        acc (next_states (h !!! state)).

Definition step (h : heap) (current : gset ref) (char : ascii) : gset ref :=
  foldl (accepting_successors h char) ∅ (iterate current).

(** [for char in input_str:] followed by the final return. *)
Fixpoint run (fuel : nat) (h : heap) (current : gset ref)
    (input_str : list ascii) : outcome bool :=
  match input_str with
  | [] => _can_terminate_without_input fuel h current
  | char :: input_str =>
      let next_states := step h current char in
      if bool_decide (next_states = ∅) then Return false
      else
        current ← _add_epsilon_transitions fuel h next_states;
        run fuel h current input_str
  end.

(** [input_str] is [None] for Python's [None]. *)
Definition check_string_fuel (fuel : nat) (self : RegexFSM)
    (input_str : option string) : outcome bool :=
  match input_str with
  | None => Raise (ValueError "Input string is required")
  | Some input_str =>
      let h := objects self in
      current ← _add_epsilon_transitions fuel h {[start_state self]};
      if bool_decide (input_str = "") then
        _can_terminate_without_input fuel h current
      else run fuel h current (String.list_ascii_of_string input_str)
  end.

End Matcher.

(** The number of edges of the graph. *)
Definition edges (h : heap) : nat :=
  sum_list_with (λ o, length (next_states o)) h.

(** Every search pops each reference it pushed once; it pushes the
    starting set, at most one more than there are edge targets, and at most
    one reference per edge leaving a visited object. *)
Definition fuel_bound (self : RegexFSM) : nat := 2 * edges (objects self) + 2.

Definition check_string (set_order : list ref → list ref) (self : RegexFSM)
    (input_str : option string) : outcome bool :=
  check_string_fuel set_order (fuel_bound self) self input_str.

(** Compile, then match. *)
Definition matches (set_order : list ref → list ref) (regex_expr : string)
    (input_str : option string) : outcome bool :=
  self ← RegexFSM_init regex_expr; check_string set_order self input_str.

(** ** Notions used to state the properties *)

(** Iteration over a set visits every element once, in some order. *)
Definition valid_order (set_order : list ref → list ref) : Prop :=
  ∀ l, set_order l ≡ₚ l.

Definition out_degree (h : heap) (r : ref) : nat :=
  length (next_states (h !!! r)).

(** The references that occur in some [next_states] list. *)
Definition targets (h : heap) : gset ref :=
  list_to_set (mjoin (next_states <$> h)).

(** Edges leaving the objects that a search has not visited yet: what the
    search may still push. *)
Definition unvisited_edges (h : heap) (visited : gset ref) : nat :=
  sum_list_with
    (λ r, if bool_decide (r ∈ visited) then 0 else out_degree h r)
    (seq 0 (length h)).

(** What both searches explore: the starting set, and every [StarState]
    that is a successor of an explored object. *)
Inductive eps_reach (h : heap) (states : gset ref) : ref → Prop :=
| eps_reach_start x : x ∈ states → eps_reach h states x
| eps_reach_star x y :
    eps_reach h states x →
    y ∈ next_states (h !!! x) →
    is_StarState (cls (h !!! y)) →
    eps_reach h states y.

Definition has_termination_successor (h : heap) (x : ref) : Prop :=
  ∃ y, y ∈ next_states (h !!! x) ∧ is_TerminationState (cls (h !!! y)).

(** The bracket body as the specification describes its parsing: scanning
    left to right, a character followed by [-] and a third character is a
    range of the two endpoints and three characters are consumed; otherwise
    the character is a single and one character is consumed. *)
Fixpoint parse_class_body (body : list ascii)
    : list (ascii * ascii) * gset ascii :=
  match body with
  | [] => ([], ∅)
  | c :: rest =>
      match rest with
      | d :: e :: rest' =>
          if bool_decide (d = "-"%char) then
            let '(ranges, singles) := parse_class_body rest' in
            ((c, e) :: ranges, singles)
          else
            let '(ranges, singles) := parse_class_body rest in
            (ranges, {[c]} ∪ singles)
      | _ =>
          let '(ranges, singles) := parse_class_body rest in
          (ranges, {[c]} ∪ singles)
      end
  end.

(** A leading [^] sets [negated] and is consumed. *)
Definition class_of_body (body : list ascii) : state :=
  let negated := bool_decide (head body = Some "^"%char) in
  let '(ranges, singles) :=
    parse_class_body (if negated then tail body else body) in
  CharacterClassState ranges singles negated.

(** The ranges an object matches with, its own or those of the object it
    repeats. *)
Fixpoint ranges_of (s : state) : list (ascii * ascii) :=
  match s with
  | CharacterClassState char_ranges _ _ => char_ranges
  | StarState checking_state => ranges_of checking_state
  | PlusState checking_state => ranges_of checking_state
  | _ => []
  end.

(** [low-high] is written in the text at position [i]. *)
Definition written_range (text : list ascii) (low high : ascii) : Prop :=
  ∃ i, text !! i = Some low ∧ text !! (i + 1) = Some "-"%char
       ∧ text !! (i + 2) = Some high.

(** Some [[] of the text has no []] after it. *)
Definition unclosed_bracket (text : list ascii) : Prop :=
  ∃ k, text !! k = Some "["%char ∧ ∀ m, k < m → text !! m ≠ Some "]"%char.

(** The object made for a character that is neither a quantifier nor the
    opening of a class. *)
Definition literal_state (char : ascii) : state :=
  if bool_decide (char = "."%char) then DotState else AsciiState char.

(** The iterations of the main loop of [RegexFSM.__init__] as a step
    relation on (store, [states], index). *)
Inductive compile_step (regex_expr : list ascii) (start_state : ref)
    : heap * list ref * nat → heap * list ref * nat → Prop :=
| compile_star h states i :
    regex_expr !! i = Some "*"%char → states ≠ [] →
    compile_step regex_expr start_state (h, states, i)
      (quantify StarState start_state h states, i + 1)
| compile_plus h states i :
    regex_expr !! i = Some "+"%char → states ≠ [] →
    compile_step regex_expr start_state (h, states, i)
      (quantify PlusState start_state h states, i + 1)
| compile_class h states i j :
    regex_expr !! i = Some "["%char →
    i < j → regex_expr !! j = Some "]"%char →
    (∀ m, i < m < j → regex_expr !! m ≠ Some "]"%char) →
    compile_step regex_expr start_state (h, states, i)
      (link start_state h states
         (class_of_body (take (j - (i + 1)) (drop (i + 1) regex_expr))),
       j + 1)
| compile_literal h states i char :
    regex_expr !! i = Some char → char ≠ "["%char →
    (char = "*"%char ∨ char = "+"%char → states = []) →
    compile_step regex_expr start_state (h, states, i)
      (link start_state h states (literal_state char), i + 1).

(** The patterns [RegexFSM.__init__] raises on: the empty pattern, a
    pattern that begins with a quantifier, a pattern with an unclosed
    bracket. *)
Definition rejected_pattern (regex_expr : string) : Prop :=
  let text := String.list_ascii_of_string regex_expr in
  text = [] ∨ text !! 0 = Some "*"%char ∨ text !! 0 = Some "+"%char
  ∨ unclosed_bracket text.

(** The end of [RegexFSM.__init__]: the termination object is linked from
    the last construct. *)
Definition finish (start_state : ref) (h : heap) (states : list ref) : heap :=
  let '(h, term_state) := new h TerminationState in
  if bool_decide (states ≠ []) then
    append_next h (from_end states 1) term_state
  else append_next h start_state term_state.

(** Membership in a character class before negation: the character lies
    in some range, in code-point order, or is one of the singles. *)
Definition in_class (char_ranges : list (ascii * ascii))
    (individual_chars : gset ascii) (char : ascii) : Prop :=
  Exists (λ r, ord r.1 ≤ ord char ≤ ord r.2) char_ranges
  ∨ char ∈ individual_chars.

Global Instance in_class_dec char_ranges individual_chars char :
  Decision (in_class char_ranges individual_chars char).
Proof. unfold in_class. apply _. Defined.

(** The machines of the patterns [a*] and [a+]. *)
Definition a_star_fsm : RegexFSM :=
  {| objects :=
       [Object StartState [2];
        Object (AsciiState "a") [];
        Object (StarState (AsciiState "a")) [2; 3];
        Object TerminationState []];
     start_state := 0 |}.

Definition a_plus_fsm : RegexFSM :=
  {| objects :=
       [Object StartState [2];
        Object (AsciiState "a") [];
        Object (PlusState (AsciiState "a")) [2; 3];
        Object TerminationState []];
     start_state := 0 |}.

(** Every range of every object of the store is written in the text. *)
Definition ranges_written (text : list ascii) (h : heap) : Prop :=
  ∀ o low high,
    o ∈ h → (low, high) ∈ ranges_of (cls o) → written_range text low high.

(** The machine of the pattern [[z-a]]. *)
Definition z_a_class : object :=
  Object (CharacterClassState [("z"%char, "a"%char)] ∅ false) [2].

Definition z_a_fsm : RegexFSM :=
  {| objects := [Object StartState [1]; z_a_class; Object TerminationState []];
     start_state := 0 |}.

(** Patterns built from literal characters and [.] only. *)
Definition plain_char (c : ascii) : Prop :=
  c ≠ "*"%char ∧ c ≠ "+"%char ∧ c ≠ "["%char.

Definition plain_pattern (regex_expr : string) : Prop :=
  Forall plain_char (String.list_ascii_of_string regex_expr).

(** The input has the length of the pattern and, at every position, the
    pattern character is [.] or is the input character. *)
Definition literal_dot_match (pattern input : list ascii) : Prop :=
  length input = length pattern
  ∧ ∀ i c d, pattern !! i = Some c → input !! i = Some d →
             c = "."%char ∨ c = d.

(** A store in which every object but the last is followed by the next
    one only; [k] is the reference of the first object. *)
Fixpoint chain (k : nat) (cs : list state) : list object :=
  match cs with
  | [] => []
  | c :: cs' =>
      Object c (match cs' with [] => [] | _ => [S k] end) :: chain (S k) cs'
  end.

(** [literal_dot_match] as a function. *)
Fixpoint plain_matches (pattern input : list ascii) : bool :=
  match pattern, input with
  | [], [] => true
  | c :: pattern, d :: input =>
      (bool_decide (c = "."%char) || bool_decide (c = d))
      && plain_matches pattern input
  | _, _ => false
  end.

(** The machine of the pattern [a.c]. *)
Definition a_dot_c_fsm : RegexFSM :=
  {| objects :=
       [Object StartState [1];
        Object (AsciiState "a") [2];
        Object DotState [3];
        Object (AsciiState "c") [4];
        Object TerminationState []];
     start_state := 0 |}.

(** The successors the second loop of a search pushes. *)
Definition fresh_star (h : heap) (visited : gset ref) (y : ref) : Prop :=
  is_StarState (cls (h !!! y)) && bool_decide (y ∉ visited).

Global Instance fresh_star_dec h visited y :
  Decision (fresh_star h visited y).
Proof. unfold fresh_star. apply _. Defined.

(** The invariant of the loop of [_add_epsilon_transitions] started on
    [states]. *)
Definition epsilon_inv (h : heap) (states res : gset ref)
    (worklist : list ref) (visited : gset ref) : Prop :=
  states ⊆ res
  ∧ (∀ x, x ∈ res → eps_reach h states x)
  ∧ (∀ x, x ∈ res → x ∈ visited ∨ x ∈ worklist)
  ∧ (∀ x y, x ∈ visited → y ∈ next_states (h !!! x) →
            is_StarState (cls (h !!! y)) → y ∈ res)
  ∧ visited ⊆ res
  ∧ (∀ x, x ∈ worklist → x ∈ res).

(** The invariant of the loop of [_can_terminate_without_input] started on
    [states]. *)
Definition terminate_inv (h : heap) (states : gset ref) (queue : list ref)
    (visited : gset ref) : Prop :=
  (∀ x, x ∈ states → x ∈ visited ∨ x ∈ queue)
  ∧ (∀ x, x ∈ visited ∨ x ∈ queue → eps_reach h states x)
  ∧ (∀ x, x ∈ visited → ¬ has_termination_successor h x)
  ∧ (∀ x y, x ∈ visited → y ∈ next_states (h !!! x) →
            is_StarState (cls (h !!! y)) → y ∈ visited ∨ y ∈ queue).

(** The store of a pattern of literal characters and dots after the first
    [i] characters, and the finished one. *)
Definition plain_store (text : list ascii) (i : nat) : list object :=
  chain 0 (StartState :: (literal_state <$> take i text)).

Definition plain_states (text : list ascii) : list state :=
  StartState :: (literal_state <$> text) ++ [TerminationState].

Definition plain_graph (text : list ascii) : list object :=
  chain 0 (plain_states text).

(** The object the next construct is linked from, and the object the last
    construct is linked from, as the branches of the main loop compute
    them. *)
Definition last_of (start_state : ref) (states : list ref) : ref :=
  if bool_decide (states ≠ []) then from_end states 1 else start_state.

Definition parent_of (start_state : ref) (states : list ref) : ref :=
  if bool_decide (2 ≤ length states) then from_end states 2
  else start_state.

(** What the main loop maintains about the number of successors: no
    object has more than two, the last construct has at most one, and its
    parent has at most one besides it. *)
Definition degree_inv (start_state : ref) (h : heap) (states : list ref)
    : Prop :=
  start_state < length h
  ∧ Forall (λ r, r < length h) states
  ∧ (∀ r, out_degree h r ≤ 2)
  ∧ out_degree h (last_of start_state states) ≤ 1
  ∧ (states ≠ [] →
     length (filter (λ s, s ≠ from_end states 1)
               (next_states (h !!! parent_of start_state states))) ≤ 1).

(** ** State.check_next *)

(** [raise NotImplementedError(msg)], the only exception of [check_next]. *)
Inductive rejection : Type :=
| NotImplementedError (msg : string).

(** The [for state in self.next_states] loop of [check_next]: the first
    successor that accepts the character is returned. *)
Fixpoint check_next_loop (h : heap) (next_states : list ref)
    (next_char : ascii) : ref + rejection :=
  match next_states with
  | [] => inr (NotImplementedError "rejected string")
  | state :: next_states =>
      if check_self (cls (h !!! state)) next_char then inl state
      else check_next_loop h next_states next_char
  end.

Definition check_next (h : heap) (self : ref) (next_char : ascii)
    : ref + rejection :=
  check_next_loop h (next_states (h !!! self)) next_char.

(** [_add_epsilon_transitions] with the block
    [if isinstance(state, StarState): ...] taken out of the loop body. *)
Fixpoint epsilon_loop_without_self_loop (fuel : nat) (h : heap)
    (res : gset ref) (worklist : list ref) (visited : gset ref)
    : outcome (gset ref) :=
  match fuel with
  | O => OutOfFuel
  | S fuel =>
      match worklist with
      | [] => Return res
      | state :: worklist =>
          if bool_decide (state ∈ visited) then
            epsilon_loop_without_self_loop fuel h res worklist visited
          else
            let visited := {[state]} ∪ visited in
            let '(res, worklist) :=
              foldl (star_succ_step h visited) (res, worklist)
                    (next_states (h !!! state)) in
            epsilon_loop_without_self_loop fuel h res worklist visited
      end
  end.

(** What the main loop of [RegexFSM.__init__] maintains about the store:
    the first object is the [StartState], no other object is a
    [StartState] or a [TerminationState], and every successor is an
    allocated object other than the first. *)
Definition shape_inv (h : heap) : Prop :=
  (∃ ns, h !! 0 = Some (Object StartState ns))
  ∧ (∀ i o, h !! i = Some o → 0 < i →
            cls o ≠ StartState ∧ cls o ≠ TerminationState)
  ∧ (∀ i o y, h !! i = Some o → y ∈ next_states o → 0 < y < length h).

(** The graph of a quantified character: the patterns [c*] and [c+] for a
    character [c] that is not special. *)
Definition repeat_graph (wrap : state → state) (c : ascii) : list object :=
  [Object StartState [2];
   Object (literal_state c) [];
   Object (wrap (literal_state c)) [2; 3];
   Object TerminationState []].

(** Consecutive objects of a path are linked by [next_states]. *)
Definition linked (h : heap) (path : list ref) : Prop :=
  ∀ k a b, path !! k = Some a → path !! S k = Some b →
           b ∈ next_states (h !!! a).

(** What the main loop of [RegexFSM.__init__] maintains about [states]:
    the start object followed by the constructs is a path of distinct
    allocated objects. *)
Definition path_inv (start_state : ref) (h : heap) (states : list ref)
    : Prop :=
  NoDup (start_state :: states)
  ∧ Forall (λ r, r < length h) (start_state :: states)
  ∧ linked h (start_state :: states).

(** * Properties *)

(** ** Counting edges *)

Lemma lookup_total_out_of_range (h : heap) (r : ref) :
  length h ≤ r → h !!! r = Object StartState [].
Proof.
  intros Hr. rewrite list_lookup_total_alt.
  by rewrite (lookup_ge_None_2 h r Hr).
Qed.

Lemma out_degree_out_of_range (h : heap) (r : ref) :
  length h ≤ r → out_degree h r = 0.
Proof. intros Hr. unfold out_degree. by rewrite lookup_total_out_of_range. Qed.

Lemma sum_list_with_visit (d : nat → nat) (visited : gset nat) (x : nat)
    (l : list nat) :
  NoDup l → x ∉ visited →
  sum_list_with (λ r, if bool_decide (r ∈ {[x]} ∪ visited) then 0 else d r) l
  + (if bool_decide (x ∈ l) then d x else 0)
  = sum_list_with (λ r, if bool_decide (r ∈ visited) then 0 else d r) l.
Proof.
  intros Hnd Hx. induction Hnd as [|y l Hy Hnd IH]; simpl; [done|].
  destruct (decide (x = y)) as [->|Hne].
  - rewrite (bool_decide_eq_true_2 (y ∈ {[y]} ∪ visited)) by set_solver.
    rewrite (bool_decide_eq_true_2 (y ∈ y :: l)) by set_solver.
    rewrite (bool_decide_eq_false_2 (y ∈ visited)) by done.
    rewrite (bool_decide_eq_false_2 (y ∈ l)) in IH by done. lia.
  - rewrite (bool_decide_ext (y ∈ {[x]} ∪ visited) (y ∈ visited))
      by set_solver.
    rewrite (bool_decide_ext (x ∈ y :: l) (x ∈ l)) by set_solver. lia.
Qed.

Lemma unvisited_edges_visit (h : heap) (visited : gset ref) (state : ref) :
  state ∉ visited →
  unvisited_edges h ({[state]} ∪ visited) + out_degree h state
  = unvisited_edges h visited.
Proof.
  intros Hx. unfold unvisited_edges.
  rewrite <- (sum_list_with_visit (out_degree h) visited state
                (seq 0 (length h)) (NoDup_seq 0 _) Hx).
  f_equal. case_bool_decide as Hin; [done|].
  apply out_degree_out_of_range. rewrite elem_of_seq in Hin. lia.
Qed.

Lemma unvisited_edges_empty (h : heap) : unvisited_edges h ∅ = edges h.
Proof.
  unfold unvisited_edges, edges.
  transitivity (sum_list_with (out_degree h) (seq 0 (length h))).
  { induction (seq 0 (length h)) as [|x l IH]; simpl; [done|].
    by rewrite IH, bool_decide_eq_false_2 by set_solver. }
  unfold out_degree.
  induction h as [|o h IH] using rev_ind; [done|].
  rewrite length_app. simpl length.
  replace (length h + 1) with (S (length h)) by lia.
  rewrite seq_S, !sum_list_with_app. simpl.
  rewrite list_lookup_total_middle by done.
  rewrite <- IH. f_equal.
  clear IH. assert (∀ r, r ∈ seq 0 (length h) → r < length h) as Hlt.
  { intros r. rewrite elem_of_seq. lia. }
  induction (seq 0 (length h)) as [|x l IH]; simpl; [done|].
  rewrite IH by (intros; apply Hlt; set_solver).
  rewrite !list_lookup_total_alt, lookup_app_l by (apply Hlt; set_solver).
  done.
Qed.

Lemma size_list_to_set_le (l : list nat) :
  size (list_to_set l : gset nat) ≤ length l.
Proof.
  induction l as [|x l IH].
  - change (list_to_set [] : gset nat) with (∅ : gset nat).
    by rewrite size_empty.
  - rewrite list_to_set_cons, size_union_alt, size_singleton. simpl.
    pose proof (subseteq_size (list_to_set l ∖ {[x]}) (list_to_set l : gset nat)
                  ltac:(set_solver)). lia.
Qed.

Lemma size_targets (h : heap) : size (targets h) ≤ edges h.
Proof.
  unfold targets, edges. etrans; [apply size_list_to_set_le|].
  induction h as [|o h IH]; [done|].
  rewrite fmap_cons. change (mjoin (next_states o :: (next_states <$> h)))
    with (next_states o ++ mjoin (next_states <$> h)).
  rewrite length_app. simpl. lia.
Qed.

Lemma elem_of_targets (h : heap) (x y : ref) :
  y ∈ next_states (h !!! x) → y ∈ targets h.
Proof.
  intros Hy. unfold targets. rewrite elem_of_list_to_set.
  destruct (decide (x < length h)) as [Hlt|Hge].
  - apply list_elem_of_join. exists (next_states (h !!! x)). split; [done|].
    apply list_elem_of_fmap. exists (h !!! x). split; [done|].
    apply list_elem_of_lookup. exists x.
    by apply list_lookup_lookup_total_lt.
  - rewrite lookup_total_out_of_range in Hy by lia. simpl in Hy.
    by apply elem_of_nil in Hy.
Qed.

(** ** The inner [for] loops in closed form *)

Section Searches.

Variable set_order : list ref → list ref.
Hypothesis set_order_valid : valid_order set_order.

Variable h : list object.

Lemma foldl_star_succ_step visited ns res worklist :
  foldl (star_succ_step h visited) (res, worklist) ns
  = (list_to_set (filter (fresh_star h visited) ns) ∪ res,
     worklist ++ filter (fresh_star h visited) ns).
Proof.
  revert res worklist. induction ns as [|y ns IH]; intros res worklist.
  - simpl. f_equal; [set_solver | by rewrite app_nil_r].
  - simpl foldl. rewrite filter_cons.
    destruct (is_StarState (cls (h !!! y)) && bool_decide (y ∉ visited))
      eqn:Hc.
    + rewrite decide_True by (unfold fresh_star; by rewrite Hc).
      rewrite IH, <- app_assoc. f_equal. set_solver.
    + rewrite decide_False by (unfold fresh_star; rewrite Hc; simpl; tauto).
      apply IH.
Qed.

Lemma foldl_self_loop_step state visited ns res worklist :
  state ∈ visited →
  ∃ res', foldl (self_loop_step state visited) (res, worklist) ns
          = (res', worklist)
          ∧ res ⊆ res' ∧ res' ⊆ {[state]} ∪ res.
Proof.
  intros Hvis. revert res. induction ns as [|y ns IH]; intros res.
  - exists res. simpl. set_solver.
  - simpl foldl.
    destruct (bool_decide (y = state) && bool_decide (y ∉ res)) eqn:Hc.
    + apply andb_true_iff in Hc as [Hy _].
      apply bool_decide_eq_true in Hy as ->.
      rewrite bool_decide_eq_false_2 by tauto.
      destruct (IH ({[state]} ∪ res)) as (res' & -> & Hsub & Hsup).
      exists res'. set_solver.
    + apply IH.
Qed.

Lemma foldl_enqueue_step visited ns queue :
  foldl (enqueue_step h visited) queue ns
  = queue ++ filter (fresh_star h visited) ns.
Proof.
  revert queue. induction ns as [|y ns IH]; intros queue.
  - simpl. by rewrite app_nil_r.
  - simpl foldl. rewrite filter_cons. unfold enqueue_step at 2.
    destruct (is_StarState (cls (h !!! y)) && bool_decide (y ∉ visited))
      eqn:Hc.
    + rewrite decide_True by (unfold fresh_star; by rewrite Hc).
      by rewrite IH, <- app_assoc.
    + rewrite decide_False by (unfold fresh_star; rewrite Hc; simpl; tauto).
      apply IH.
Qed.

(** One iteration of [_add_epsilon_transitions] on an unvisited object. *)
Lemma epsilon_loop_visit res state worklist visited :
  state ∉ visited →
  let visited' := {[state]} ∪ visited in
  let pushed := filter (fresh_star h visited') (next_states (h !!! state)) in
  ∃ res', res ⊆ res' ∧ res' ⊆ {[state]} ∪ res ∧
    ∀ fuel,
      epsilon_loop (S fuel) h res (state :: worklist) visited
      = epsilon_loop fuel h (list_to_set pushed ∪ res')
                     (worklist ++ pushed) visited'.
Proof.
  intros Hvis visited' pushed.
  destruct (is_StarState (cls (h !!! state))) eqn:Hstar.
  - destruct (foldl_self_loop_step state visited'
                (next_states (h !!! state)) res worklist)
      as (res' & Hfold & Hsub & Hsup); [set_solver|].
    exists res'. split_and!; [done..|]. intros fuel. simpl.
    rewrite bool_decide_eq_false_2 by done. rewrite Hstar.
    fold visited'. rewrite Hfold. by rewrite foldl_star_succ_step.
  - exists res. split_and!; [set_solver..|]. intros fuel. simpl.
    rewrite bool_decide_eq_false_2 by done. rewrite Hstar.
    fold visited'. by rewrite foldl_star_succ_step.
Qed.

(** ** Termination of the two searches *)

Lemma epsilon_loop_terminates fuel res worklist visited :
  length worklist + unvisited_edges h visited < fuel →
  ∃ res', epsilon_loop fuel h res worklist visited = Return res'.
Proof.
  revert res worklist visited.
  induction fuel as [|fuel IH]; intros res worklist visited Hfuel; [lia|].
  destruct worklist as [|state worklist]; [by eexists|].
  destruct (decide (state ∈ visited)) as [Hin|Hout].
  - simpl. rewrite bool_decide_eq_true_2 by done.
    apply IH. simpl in Hfuel. lia.
  - destruct (epsilon_loop_visit res state worklist visited Hout)
      as (res' & _ & _ & ->).
    apply IH. rewrite length_app.
    pose proof (length_filter (fresh_star h ({[state]} ∪ visited))
                  (next_states (h !!! state))) as Hlen.
    pose proof (unvisited_edges_visit h visited state Hout) as Hpot.
    unfold out_degree in Hpot. simpl in Hfuel. lia.
Qed.

Lemma terminate_loop_terminates fuel queue visited :
  length queue + unvisited_edges h visited < fuel →
  ∃ b, terminate_loop fuel h queue visited = Return b.
Proof.
  revert queue visited.
  induction fuel as [|fuel IH]; intros queue visited Hfuel; [lia|].
  destruct queue as [|state queue]; [by eexists|].
  simpl. case_bool_decide as Hin.
  - apply IH. simpl in Hfuel. lia.
  - destruct (existsb _ _); [by eexists|].
    rewrite foldl_enqueue_step. apply IH. rewrite length_app.
    pose proof (length_filter (fresh_star h ({[state]} ∪ visited))
                  (next_states (h !!! state))) as Hlen.
    pose proof (unvisited_edges_visit h visited state Hin) as Hpot.
    unfold out_degree in Hpot. simpl in Hfuel. lia.
Qed.

(** ** What the two searches compute *)

Lemma elem_of_iterate (states : gset ref) x :
  x ∈ iterate set_order states ↔ x ∈ states.
Proof.
  unfold iterate. rewrite (set_order_valid (elements states)).
  apply elem_of_elements.
Qed.

Lemma length_iterate (states : gset ref) :
  length (iterate set_order states) = size states.
Proof.
  unfold iterate. by rewrite (set_order_valid (elements states)).
Qed.

Lemma elem_of_pushed visited state y :
  y ∈ filter (fresh_star h visited) (next_states (h !!! state))
  ↔ is_StarState (cls (h !!! y)) ∧ (y ∉ visited)
    ∧ y ∈ next_states (h !!! state).
Proof.
  rewrite list_elem_of_filter. unfold fresh_star.
  rewrite andb_True, bool_decide_spec. tauto.
Qed.

Lemma epsilon_loop_reach states fuel res worklist visited res' :
  epsilon_loop fuel h res worklist visited = Return res' →
  epsilon_inv h states res worklist visited →
  ∀ x, x ∈ res' ↔ eps_reach h states x.
Proof.
  revert res worklist visited.
  induction fuel as [|fuel IH]; intros res worklist visited Hrun Hinv;
    [done|].
  destruct worklist as [|state worklist].
  { simpl in Hrun. injection Hrun as <-.
    destruct Hinv as (Hstart & Hsound & Hfront & Hclosed & _ & _).
    intros x. split; [apply Hsound|].
    induction 1 as [x Hx|x y _ IHx Hy Hstar]; [set_solver|].
    apply (Hclosed x y); [|done..].
    destruct (Hfront x IHx) as [?|Hnil]; [done|].
    by apply elem_of_nil in Hnil. }
  destruct (decide (state ∈ visited)) as [Hin|Hout].
  { simpl in Hrun. rewrite bool_decide_eq_true_2 in Hrun by done.
    apply (IH _ _ _ Hrun).
    destruct Hinv as (Hstart & Hsound & Hfront & Hclosed & Hvis & Hwl).
    split_and!; [done..| |done|done| ].
    - intros x Hx. destruct (Hfront x Hx) as [?|Hc]; [by left|].
      apply elem_of_cons in Hc as [->|?]; [by left|by right].
    - intros x Hx. apply Hwl. by apply elem_of_cons; right. }
  destruct (epsilon_loop_visit res state worklist visited Hout)
    as (res1 & Hsub & Hsup & Hstep).
  rewrite Hstep in Hrun. apply (IH _ _ _ Hrun). clear Hstep Hrun IH.
  destruct Hinv as (Hstart & Hsound & Hfront & Hclosed & Hvis & Hwl).
  assert (state ∈ res) as Hstate by (apply Hwl; by apply elem_of_cons; left).
  assert (∀ x, x ∈ res1 → x ∈ res) as Hres1 by set_solver.
  split_and!.
  - set_solver.
  - intros x. rewrite elem_of_union, elem_of_list_to_set, elem_of_pushed.
    intros [(Hstar & _ & Hnext)|Hx]; [|by apply Hsound, Hres1].
    eapply eps_reach_star; [apply Hsound, Hstate|done..].
  - intros x. rewrite elem_of_union, elem_of_list_to_set, elem_of_app.
    intros [Hx|Hx]; [by right; right|].
    destruct (Hfront x (Hres1 x Hx)) as [?|Hc]; [left; set_solver|].
    apply elem_of_cons in Hc as [->|?]; [left; set_solver|by right; left].
  - intros x y Hx Hy Hstar.
    rewrite elem_of_union, elem_of_list_to_set, elem_of_pushed.
    apply elem_of_union in Hx as [Hx|Hx].
    + apply elem_of_singleton in Hx as ->.
      destruct (decide (y ∈ {[state]} ∪ visited)) as [Hyv|Hyv];
        [right|by left].
      apply Hsub. set_solver.
    + right. apply Hsub. by apply (Hclosed x y).
  - set_solver.
  - intros x. rewrite elem_of_app, elem_of_union, elem_of_list_to_set.
    intros [Hx|Hx]; [right|by left].
    apply Hsub, Hwl. by apply elem_of_cons; right.
Qed.

Lemma add_epsilon_transitions_reach fuel (states : gset ref) :
  size states + edges h < fuel →
  ∃ res, _add_epsilon_transitions set_order fuel h states = Return res
         ∧ ∀ x, x ∈ res ↔ eps_reach h states x.
Proof.
  intros Hfuel. unfold _add_epsilon_transitions.
  destruct (epsilon_loop_terminates fuel states
              (iterate set_order states) ∅) as [res Hres].
  { by rewrite length_iterate, unvisited_edges_empty. }
  exists res. split; [done|].
  apply (epsilon_loop_reach states _ _ _ _ _ Hres).
  split_and!; [done|by constructor| |set_solver|set_solver| ].
  - intros x Hx. right. by apply elem_of_iterate.
  - intros x. apply elem_of_iterate.
Qed.

Lemma existsb_termination x :
  existsb (λ s, is_TerminationState (cls (h !!! s)))
          (next_states (h !!! x)) = true
  ↔ has_termination_successor h x.
Proof.
  rewrite existsb_exists. unfold has_termination_successor.
  split; intros (y & Hy & Ht); exists y.
  - split; [by apply list_elem_of_In|by apply Is_true_true].
  - split; [by apply list_elem_of_In|by apply Is_true_true].
Qed.

Lemma terminate_loop_reach states fuel queue visited b :
  terminate_loop fuel h queue visited = Return b →
  terminate_inv h states queue visited →
  b = true ↔ ∃ x, eps_reach h states x ∧ has_termination_successor h x.
Proof.
  revert queue visited.
  induction fuel as [|fuel IH]; intros queue visited Hrun Hinv; [done|].
  destruct queue as [|state queue].
  { simpl in Hrun. injection Hrun as <-.
    destruct Hinv as (Hstart & _ & Hnone & Hclosed).
    split; [done|]. intros (x & Hx & Hterm). exfalso.
    apply (Hnone x); [|done]. clear Hterm.
    induction Hx as [x Hx|x y _ IHx Hy Hstar].
    - destruct (Hstart x Hx) as [?|Hnil]; [done|].
      by apply elem_of_nil in Hnil.
    - destruct (Hclosed x y IHx Hy Hstar) as [?|Hnil]; [done|].
      by apply elem_of_nil in Hnil. }
  simpl in Hrun.
  destruct Hinv as (Hstart & Hsound & Hnone & Hclosed).
  case_bool_decide as Hin.
  { apply (IH _ _ Hrun). split_and!; [| |done|].
    - intros x Hx. destruct (Hstart x Hx) as [?|Hc]; [by left|].
      apply elem_of_cons in Hc as [->|?]; [by left|by right].
    - intros x [?|?]; apply Hsound; [by left|].
      right. by apply elem_of_cons; right.
    - intros x y Hx Hy Hstar.
      destruct (Hclosed x y Hx Hy Hstar) as [?|Hc]; [by left|].
      apply elem_of_cons in Hc as [->|?]; [by left|by right]. }
  assert (eps_reach h states state) as Hstate.
  { apply Hsound. right. by apply elem_of_cons; left. }
  destruct (existsb _ _) eqn:Hterm.
  { injection Hrun as <-. split; [intros _|done].
    exists state. split; [done|]. by apply existsb_termination. }
  rewrite foldl_enqueue_step in Hrun. apply (IH _ _ Hrun). clear IH Hrun.
  split_and!.
  - intros x Hx. rewrite elem_of_app.
    destruct (Hstart x Hx) as [?|Hc]; [left; set_solver|].
    apply elem_of_cons in Hc as [->|?]; [left; set_solver|by right; left].
  - intros x. rewrite elem_of_app, elem_of_pushed, elem_of_union.
    intros [[Hx|Hx]|[Hx|(Hstar & _ & Hnext)]].
    + by apply elem_of_singleton in Hx as ->.
    + apply Hsound. by left.
    + apply Hsound. right. by apply elem_of_cons; right.
    + by eapply eps_reach_star.
  - intros x [Hx|Hx]%elem_of_union; [|by apply Hnone].
    apply elem_of_singleton in Hx as ->.
    rewrite <- existsb_termination. by rewrite Hterm.
  - intros x y Hx Hy Hstar. rewrite elem_of_app, elem_of_pushed.
    destruct (decide (y ∈ {[state]} ∪ visited)) as [Hyv|Hyv]; [by left|].
    right. apply elem_of_union in Hx as [Hx|Hx].
    + apply elem_of_singleton in Hx as ->. by right.
    + destruct (Hclosed x y Hx Hy Hstar) as [?|Hc]; [set_solver|].
      apply elem_of_cons in Hc as [->|?]; [set_solver|by left].
Qed.

Lemma can_terminate_reach fuel (states : gset ref) :
  size states + edges h < fuel →
  ∃ b, _can_terminate_without_input set_order fuel h states = Return b
       ∧ (b = true
          ↔ ∃ x, eps_reach h states x ∧ has_termination_successor h x).
Proof.
  intros Hfuel. unfold _can_terminate_without_input.
  destruct (terminate_loop_terminates fuel (iterate set_order states) ∅)
    as [b Hb].
  { by rewrite length_iterate, unvisited_edges_empty. }
  exists b. split; [done|].
  apply (terminate_loop_reach states _ _ _ _ Hb).
  split_and!.
  - intros x Hx. right. by apply elem_of_iterate.
  - intros x [Hx|Hx]; [set_solver|]. constructor. by apply elem_of_iterate.
  - set_solver.
  - set_solver.
Qed.

End Searches.

(** ** The transition on one character *)

Section Step.

Variable set_order : list ref → list ref.
Hypothesis set_order_valid : valid_order set_order.

Variable h : list object.

Lemma elem_of_accepting_successors char acc state y :
  y ∈ accepting_successors h char acc state
  ↔ y ∈ acc
    ∨ (y ∈ next_states (h !!! state) ∧ check_self (cls (h !!! y)) char).
Proof.
  unfold accepting_successors. revert acc.
  induction (next_states (h !!! state)) as [|z ns IH]; intros acc; simpl.
  - rewrite elem_of_nil. tauto.
  - rewrite IH, elem_of_cons.
    destruct (check_self (cls (h !!! z)) char) eqn:Hz.
    + rewrite elem_of_union, elem_of_singleton. split; [|naive_solver].
      intros [[->|?]|?]; [|tauto..]. right. by rewrite Hz; auto.
    + split; [tauto|]. intros [?|[[->|?] Hy]]; [tauto| |tauto].
      by rewrite Hz in Hy.
Qed.

Lemma elem_of_foldl_accepting_successors char l acc y :
  y ∈ foldl (accepting_successors h char) acc l
  ↔ y ∈ acc
    ∨ ∃ x, x ∈ l ∧ y ∈ next_states (h !!! x)
           ∧ check_self (cls (h !!! y)) char.
Proof.
  revert acc. induction l as [|x l IH]; intros acc; simpl.
  - split; [tauto|]. intros [?|(x & Hx & _)]; [done|].
    by apply elem_of_nil in Hx.
  - rewrite IH, elem_of_accepting_successors. split.
    + intros [[?|?]|(x' & ? & ?)]; [tauto| |].
      * right. exists x. by rewrite elem_of_cons; auto.
      * right. exists x'. by rewrite elem_of_cons; auto.
    + intros [?|(x' & [->|?]%elem_of_cons & ?)]; [tauto..|].
      right. by exists x'.
Qed.

Lemma elem_of_step current char y :
  y ∈ step set_order h current char
  ↔ ∃ x, x ∈ current ∧ y ∈ next_states (h !!! x)
         ∧ check_self (cls (h !!! y)) char.
Proof.
  unfold step. rewrite elem_of_foldl_accepting_successors.
  setoid_rewrite (elem_of_iterate set_order set_order_valid).
  split; [|by right]. intros [Hy|?]; [|done]. by apply elem_of_empty in Hy.
Qed.

Lemma step_targets current char :
  step set_order h current char ⊆ targets h.
Proof.
  intros y (x & _ & Hy & _)%elem_of_step. by apply (elem_of_targets h x).
Qed.

End Step.

(** ** Sizes of the sets a run goes through *)

Lemma eps_reach_targets (h : list object) (states : gset ref) x :
  eps_reach h states x → x ∈ states ∪ targets h.
Proof.
  intros [x' Hx|x' y _ Hy _]; [set_solver|].
  apply elem_of_union_r. by apply (elem_of_targets h x').
Qed.

Lemma size_start_targets (h : list object) (start : ref) (states : gset ref) :
  states ⊆ {[start]} ∪ targets h → size states ≤ 1 + edges h.
Proof.
  intros Hsub. etrans; [by apply subseteq_size|].
  rewrite size_union_alt, size_singleton.
  pose proof (subseteq_size (targets h ∖ {[start]}) (targets h)
                ltac:(set_solver)).
  pose proof (size_targets h). lia.
Qed.

(** ** A run does not depend on the iteration order or on spare fuel *)

Section Agreement.

Variables order1 order2 : list ref → list ref.
Hypothesis order1_valid : valid_order order1.
Hypothesis order2_valid : valid_order order2.

Lemma step_agree (h : list object) current char :
  step order1 h current char = step order2 h current char.
Proof.
  apply set_eq. intros y. by rewrite !elem_of_step.
Qed.

Lemma add_epsilon_transitions_agree (h : list object) fuel1 fuel2
    (states : gset ref) :
  size states + edges h < fuel1 →
  size states + edges h < fuel2 →
  _add_epsilon_transitions order1 fuel1 h states
  = _add_epsilon_transitions order2 fuel2 h states.
Proof.
  intros H1 H2.
  destruct (add_epsilon_transitions_reach order1 order1_valid h _ _ H1)
    as (res1 & -> & Hres1).
  destruct (add_epsilon_transitions_reach order2 order2_valid h _ _ H2)
    as (res2 & -> & Hres2).
  f_equal. apply set_eq. intros x. by rewrite Hres1, Hres2.
Qed.

Lemma can_terminate_agree (h : list object) fuel1 fuel2
    (states : gset ref) :
  size states + edges h < fuel1 →
  size states + edges h < fuel2 →
  _can_terminate_without_input order1 fuel1 h states
  = _can_terminate_without_input order2 fuel2 h states.
Proof.
  intros H1 H2.
  destruct (can_terminate_reach order1 order1_valid h _ _ H1)
    as (b1 & -> & Hb1).
  destruct (can_terminate_reach order2 order2_valid h _ _ H2)
    as (b2 & -> & Hb2).
  f_equal. apply eq_true_iff_eq. by rewrite Hb1, Hb2.
Qed.

Lemma run_agree (h : list object) fuel1 fuel2 input_str
    (current : gset ref) start :
  2 * edges h + 2 ≤ fuel1 →
  2 * edges h + 2 ≤ fuel2 →
  current ⊆ {[start]} ∪ targets h →
  run order1 fuel1 h current input_str
  = run order2 fuel2 h current input_str
  ∧ ∃ b, run order1 fuel1 h current input_str = Return b.
Proof.
  intros H1 H2. revert current.
  induction input_str as [|char input_str IH]; intros current Hcur; simpl.
  - pose proof (size_start_targets h start current Hcur) as Hsize.
    split; [apply can_terminate_agree; lia|].
    destruct (can_terminate_reach order1 order1_valid h fuel1 current)
      as (b & ? & _); [lia|]. by exists b.
  - rewrite <- step_agree.
    case_bool_decide as Hempty; [by eauto|].
    pose proof (step_targets order1 order1_valid h current char) as Hstep.
    pose proof (subseteq_size _ _ Hstep) as Hsize.
    pose proof (size_targets h) as Htargets.
    rewrite <- (add_epsilon_transitions_agree _ fuel1 fuel2) by lia.
    destruct (add_epsilon_transitions_reach order1 order1_valid h fuel1
                (step order1 h current char)) as (res & -> & Hres); [lia|].
    simpl. apply IH. intros x Hx%Hres%eps_reach_targets. set_solver.
Qed.

Lemma check_string_fuel_agree (self : RegexFSM) fuel1 fuel2 input_str :
  fuel_bound self ≤ fuel1 →
  fuel_bound self ≤ fuel2 →
  check_string_fuel order1 fuel1 self input_str
  = check_string_fuel order2 fuel2 self input_str
  ∧ (∀ s, input_str = Some s →
          ∃ b, check_string_fuel order1 fuel1 self input_str = Return b).
Proof.
  unfold fuel_bound. intros H1 H2.
  destruct input_str as [input_str|]; simpl; [|done].
  assert (size ({[start_state self]} : gset ref) + edges (objects self)
          < 2 * edges (objects self) + 2) as Hsize.
  { rewrite size_singleton. lia. }
  rewrite <- (add_epsilon_transitions_agree _ fuel1 fuel2) by lia.
  destruct (add_epsilon_transitions_reach order1 order1_valid
              (objects self) fuel1 {[start_state self]})
    as (res & -> & Hres); [lia|].
  simpl.
  assert (res ⊆ {[start_state self]} ∪ targets (objects self)) as Hsub.
  { by intros x Hx%Hres%eps_reach_targets. }
  pose proof (size_start_targets _ _ _ Hsub).
  case_bool_decide as Hempty.
  - split; [apply can_terminate_agree; lia|]. intros _ _.
    destruct (can_terminate_reach order1 order1_valid (objects self)
                fuel1 res) as (b & ? & _); [lia|]. by exists b.
  - destruct (run_agree (objects self) fuel1 fuel2
                (String.list_ascii_of_string input_str) res
                (start_state self) H1 H2 Hsub) as [Heq Hret].
    split; [done|]. by intros _ _.
Qed.

End Agreement.

(** ** Parsing of a bracket body *)

Lemma parse_class_body_range c e rest :
  parse_class_body (c :: "-"%char :: e :: rest)
  = ((c, e) :: (parse_class_body rest).1, (parse_class_body rest).2).
Proof. simpl. by destruct (parse_class_body rest). Qed.

Lemma parse_class_body_single c rest :
  (∀ e rest', rest ≠ "-"%char :: e :: rest') →
  parse_class_body (c :: rest)
  = ((parse_class_body rest).1, {[c]} ∪ (parse_class_body rest).2).
Proof.
  intros Hrest. destruct rest as [|d [|e rest']].
  - done.
  - done.
  - change (parse_class_body (c :: d :: e :: rest'))
      with (if bool_decide (d = "-"%char) then
              let '(ranges, singles) := parse_class_body rest' in
              ((c, e) :: ranges, singles)
            else
              let '(ranges, singles) := parse_class_body (d :: e :: rest') in
              (ranges, {[c]} ∪ singles)).
    rewrite bool_decide_eq_false_2 by (intros ->; by eapply Hrest).
    by destruct (parse_class_body (d :: e :: rest')).
Qed.

Lemma class_loop_parse fuel (class_spec : list ascii) i char_ranges
    (individual_chars : gset ascii) :
  length class_spec - i < fuel →
  class_loop fuel class_spec i char_ranges individual_chars
  = Return (char_ranges ++ (parse_class_body (drop i class_spec)).1,
            (parse_class_body (drop i class_spec)).2 ∪ individual_chars).
Proof.
  revert i char_ranges individual_chars.
  induction fuel as [|fuel IH]; intros i char_ranges individual_chars Hfuel;
    [lia|].
  simpl. destruct (class_spec !! i) as [c|] eqn:Hc.
  2:{ apply lookup_ge_None in Hc. rewrite drop_ge by done. simpl.
      f_equal. f_equal; [by rewrite app_nil_r|set_solver]. }
  pose proof (lookup_lt_Some _ _ _ Hc) as Hlt.
  rewrite (drop_S _ _ _ Hc).
  destruct (class_spec !! (i + 2)) as [e|] eqn:He.
  - pose proof (lookup_lt_Some _ _ _ He) as Hlt2.
    destruct (lookup_lt_is_Some_2 class_spec (S i) ltac:(lia)) as [d Hd].
    replace (i + 2) with (S (S i)) in He by lia.
    rewrite (drop_S _ _ _ Hd), (drop_S _ _ _ He).
    replace (i + 1) with (S i) by lia. rewrite Hd.
    case_bool_decide as Hdash.
    + injection Hdash as ->. rewrite parse_class_body_range.
      rewrite IH by lia. replace (i + 3) with (S (S (S i))) by lia.
      simpl. by rewrite <- app_assoc.
    + rewrite parse_class_body_single by (intros ? ? [= -> _ _]; done).
      rewrite IH by lia.
      rewrite (drop_S _ _ _ Hd), (drop_S _ _ _ He).
      simpl. f_equal. f_equal. set_solver.
  - apply lookup_ge_None in He.
    rewrite IH by lia. replace (i + 1) with (S i) by lia.
    rewrite parse_class_body_single.
    { simpl. f_equal. f_equal. set_solver. }
    intros e rest' Hdrop. apply (f_equal length) in Hdrop.
    rewrite length_drop in Hdrop. simpl in Hdrop. lia.
Qed.

Lemma CharacterClassState_init_class_of_body (class_spec : list ascii) :
  CharacterClassState_init class_spec = Return (class_of_body class_spec).
Proof.
  unfold CharacterClassState_init, CharacterClassState_init_fuel,
    class_of_body.
  destruct class_spec as [|c class_spec]; [done|].
  rewrite bool_decide_eq_true_2 by done.
  change (head (c :: class_spec)) with (Some c).
  change ((c :: class_spec) !! 0) with (Some c).
  change (drop 1 (c :: class_spec)) with class_spec.
  change (tail (c :: class_spec)) with class_spec.
  rewrite andb_true_l. case_bool_decide.
  - rewrite class_loop_parse by (rewrite length_cons; lia).
    rewrite drop_0, app_nil_l.
    destruct (parse_class_body class_spec). simpl.
    f_equal. f_equal. set_solver.
  - rewrite class_loop_parse by (rewrite length_cons; lia).
    rewrite drop_0, app_nil_l.
    destruct (parse_class_body (c :: class_spec)). simpl.
    f_equal. f_equal. set_solver.
Qed.

Lemma check_self_class char_ranges (individual_chars : gset ascii) negated
    char :
  check_self (CharacterClassState char_ranges individual_chars negated) char
  = xorb (existsb (in_range char) char_ranges
          || bool_decide (char ∈ individual_chars)) negated.
Proof.
  simpl. destruct (existsb _ _), (bool_decide _), negated; done.
Qed.

(** ** The loops of the compiler *)

Lemma scan_loop_spec fuel (regex_expr : list ascii) j :
  length regex_expr - j < fuel →
  ∃ k, scan_loop fuel regex_expr j = Return k ∧ j ≤ k
       ∧ (∀ m, j ≤ m < k → regex_expr !! m ≠ Some "]"%char)
       ∧ (regex_expr !! k = Some "]"%char ∨ regex_expr !! k = None).
Proof.
  revert j. induction fuel as [|fuel IH]; intros j Hfuel; [lia|].
  simpl. destruct (regex_expr !! j) as [c|] eqn:Hc.
  2:{ exists j. split_and!; [done|lia|intros; lia|by right]. }
  pose proof (lookup_lt_Some _ _ _ Hc) as Hlt.
  case_bool_decide as Hclose.
  - destruct (IH (j + 1)) as (k & Hk & Hle & Hnone & Hend); [lia|].
    exists k. split_and!; [done|lia| |done].
    intros m Hm. destruct (decide (m = j)) as [->|]; [congruence|].
    apply Hnone. lia.
  - exists j. split_and!; [done|lia|intros; lia|].
    left. rewrite Hc. f_equal. by destruct (decide (c = "]"%char)).
Qed.

Section Compile.

Variable regex_expr : list ascii.
Variable start_state : ref.

Lemma init_body_star gas h states i :
  states ≠ [] →
  init_body gas regex_expr start_state h states i "*"%char
  = Return (quantify StarState start_state h states, i + 1).
Proof.
  intros Hne. unfold init_body.
  rewrite (bool_decide_eq_true_2 (states ≠ [])) by done.
  rewrite (bool_decide_eq_true_2 ("*"%char = "*"%char)) by done.
  cbn [andb]. by destruct (quantify _ _ _ _).
Qed.

Lemma init_body_plus gas h states i :
  states ≠ [] →
  init_body gas regex_expr start_state h states i "+"%char
  = Return (quantify PlusState start_state h states, i + 1).
Proof.
  intros Hne. unfold init_body.
  rewrite (bool_decide_eq_true_2 (states ≠ [])) by done.
  rewrite (bool_decide_eq_false_2 ("+"%char = "*"%char)) by done.
  rewrite (bool_decide_eq_true_2 ("+"%char = "+"%char)) by done.
  cbn [andb]. by destruct (quantify _ _ _ _).
Qed.

Lemma init_body_class gas h states i :
  init_body gas regex_expr start_state h states i "["%char
  = j ← scan_loop gas regex_expr (i + 1);
    if bool_decide (length regex_expr ≤ j) then
      Raise (ValueError "Unclosed character class")
    else
      Return
        (link start_state h states
           (class_of_body (take (j - (i + 1)) (drop (i + 1) regex_expr))),
         j + 1).
Proof.
  unfold init_body.
  rewrite (bool_decide_eq_false_2 ("["%char = "*"%char)) by done.
  rewrite (bool_decide_eq_false_2 ("["%char = "+"%char)) by done.
  rewrite (bool_decide_eq_true_2 ("["%char = "["%char)) by done.
  cbn [andb]. destruct (scan_loop _ _ _) as [j| |]; [|done..].
  cbn [mbind outcome_bind]. case_bool_decide; [done|].
  rewrite CharacterClassState_init_class_of_body.
  cbn [mbind outcome_bind]. by destruct (link _ _ _ _).
Qed.

Lemma init_body_literal gas h states i char :
  char ≠ "["%char →
  (char = "*"%char ∨ char = "+"%char → states = []) →
  init_body gas regex_expr start_state h states i char
  = Return (link start_state h states (literal_state char), i + 1).
Proof.
  intros Hopen Hq. unfold init_body.
  assert (bool_decide (char = "*"%char) && bool_decide (states ≠ [])
          = false) as ->.
  { apply andb_false_iff. destruct (decide (char = "*"%char)) as [Hc|Hc].
    - right. apply bool_decide_eq_false_2. rewrite Hq by auto. tauto.
    - left. by apply bool_decide_eq_false_2. }
  assert (bool_decide (char = "+"%char) && bool_decide (states ≠ [])
          = false) as ->.
  { apply andb_false_iff. destruct (decide (char = "+"%char)) as [Hc|Hc].
    - right. apply bool_decide_eq_false_2. rewrite Hq by auto. tauto.
    - left. by apply bool_decide_eq_false_2. }
  rewrite (bool_decide_eq_false_2 (char = "["%char)) by done.
  unfold literal_state. by destruct (link _ _ _ _).
Qed.

Lemma init_body_cases gas h states i char :
  length regex_expr < gas →
  regex_expr !! i = Some char →
  (init_body gas regex_expr start_state h states i char
   = Raise (ValueError "Unclosed character class")
   ∧ char = "["%char
   ∧ ∀ m, i < m → regex_expr !! m ≠ Some "]"%char)
  ∨ (∃ next,
       init_body gas regex_expr start_state h states i char = Return next
       ∧ compile_step regex_expr start_state (h, states, i) next).
Proof.
  intros Hgas Hchar.
  destruct (decide (char = "["%char)) as [->|Hopen].
  { rewrite init_body_class.
    destruct (scan_loop_spec gas regex_expr (i + 1))
      as (j & -> & Hle & Hnone & Hend); [lia|].
    simpl. case_bool_decide as Hj.
    - left. split_and!; [done..|]. intros m Hm.
      destruct (decide (m < j)); [apply Hnone; lia|].
      by rewrite (lookup_ge_None_2 regex_expr m) by lia.
    - right. eexists. split; [done|].
      destruct Hend as [Hend|Hend]; [|apply lookup_ge_None in Hend; lia].
      apply compile_class; [done|lia|done|]. intros m Hm.
      apply Hnone. lia. }
  right. destruct (decide (states = [])) as [Hnil|Hne].
  { rewrite init_body_literal by auto.
    eexists. split; [done|]. apply compile_literal; auto. }
  destruct (decide (char = "*"%char)) as [->|Hstar].
  { rewrite init_body_star by done.
    eexists. split; [done|]. by apply compile_star. }
  destruct (decide (char = "+"%char)) as [->|Hplus].
  { rewrite init_body_plus by done.
    eexists. split; [done|]. by apply compile_plus. }
  rewrite init_body_literal by (done || by intros [?|?]).
  eexists. split; [done|]. apply compile_literal; [done..|].
  by intros [?|?].
Qed.

Lemma compile_step_index h states i h' states' i' :
  compile_step regex_expr start_state (h, states, i) (h', states', i') →
  i < i' ≤ length regex_expr.
Proof.
  inversion 1 as [? ? ? Hc|? ? ? Hc|? ? ? j Hc Hj Hclose|? ? ? ? Hc]; subst;
    try (apply lookup_lt_Some in Hc; lia).
  apply lookup_lt_Some in Hclose. lia.
Qed.

Lemma init_loop_cases fuel gas h states i :
  length regex_expr - i < fuel →
  length regex_expr < gas →
  i ≤ length regex_expr →
  (init_loop fuel gas regex_expr start_state h states i
   = Raise (ValueError "Unclosed character class")
   ∧ ∃ k, i ≤ k ∧ regex_expr !! k = Some "["%char
          ∧ ∀ m, k < m → regex_expr !! m ≠ Some "]"%char)
  ∨ (∃ h' states',
       init_loop fuel gas regex_expr start_state h states i
       = Return (h', states')
       ∧ rtc (compile_step regex_expr start_state)
             (h, states, i) (h', states', length regex_expr)).
Proof.
  revert h states i.
  induction fuel as [|fuel IH]; intros h states i Hfuel Hgas Hi; [lia|].
  simpl. destruct (regex_expr !! i) as [char|] eqn:Hchar.
  2:{ right. exists h, states. split; [done|].
      apply lookup_ge_None in Hchar.
      replace i with (length regex_expr) by lia. done. }
  destruct (init_body_cases gas h states i char Hgas Hchar)
    as [(-> & -> & Hnone)|([[h1 states1] i1] & -> & Hstep)].
  { left. split; [done|]. exists i. split_and!; [lia|done..]. }
  simpl. pose proof (compile_step_index _ _ _ _ _ _ Hstep) as Hidx.
  destruct (IH h1 states1 i1) as [(-> & k & Hk & Hopen & Hnone)
                                 |(h' & states' & -> & Hsteps)];
    [lia|done|lia| |].
  - left. split; [done|]. exists k. split_and!; [lia|done..].
  - right. exists h', states'. split; [done|]. by eapply rtc_l.
Qed.

(** A run of the loop to the end closes every bracket it goes through. *)
Lemma compile_steps_closed a b :
  rtc (compile_step regex_expr start_state) a b →
  ∀ k, a.2 ≤ k < b.2 → regex_expr !! k = Some "["%char →
       ∃ m, k < m ∧ regex_expr !! m = Some "]"%char.
Proof.
  induction 1 as [a|a b c Hstep Hsteps IH]; intros k Hk Hopen; [lia|].
  destruct a as [[h states] i], b as [[h1 states1] i1]. simpl in *.
  destruct (decide (i1 ≤ k)) as [Hle|Hlt]; [apply IH; [lia|done]|].
  inversion Hstep as [? ? ? Hc|? ? ? Hc|? ? ? j Hc Hj Hclose Hnone
                      |? ? ? char Hc Hne]; subst.
  - assert (k = i) as -> by lia. congruence.
  - assert (k = i) as -> by lia. congruence.
  - exists j. split; [|done].
    destruct (decide (k = j)) as [->|]; [congruence|lia].
  - assert (k = i) as -> by lia. congruence.
Qed.

End Compile.

(** ** The outcomes of [RegexFSM.__init__] *)

Lemma length_list_ascii_of_string (s : string) :
  length (String.list_ascii_of_string s) = String.length s.
Proof. induction s as [|c s IH]; simpl; [done|]. by rewrite IH. Qed.

Lemma RegexFSM_init_fuel_cases fuel (regex_expr : string) :
  String.length regex_expr < fuel →
  let text := String.list_ascii_of_string regex_expr in
  (text = []
   ∧ RegexFSM_init_fuel fuel regex_expr
     = Raise (ValueError "Empty regex pattern"))
  ∨ (text !! 0 = Some "*"%char
     ∧ RegexFSM_init_fuel fuel regex_expr
       = Raise (ValueError
                  "'*' cannot be used without a preceding character"))
  ∨ (text !! 0 = Some "+"%char
     ∧ RegexFSM_init_fuel fuel regex_expr
       = Raise (ValueError
                  "'+' cannot be used without a preceding character"))
  ∨ (unclosed_bracket text
     ∧ RegexFSM_init_fuel fuel regex_expr
       = Raise (ValueError "Unclosed character class"))
  ∨ (¬ rejected_pattern regex_expr
     ∧ ∃ h states,
         rtc (compile_step text 0)
             ([Object StartState []], [], 0) (h, states, length text)
         ∧ RegexFSM_init_fuel fuel regex_expr
           = Return {| objects := finish 0 h states; start_state := 0 |}).
Proof.
  intros Hfuel text. unfold RegexFSM_init_fuel. fold text.
  assert (length text < fuel) as Hlen.
  { unfold text. by rewrite length_list_ascii_of_string. }
  change (new [] StartState) with ([Object StartState []], 0).
  cbv iota beta.
  case_bool_decide as Hnil; [by left|].
  destruct (decide (text !! 0 = Some "*"%char)) as [Hstar|Hstar].
  { right. left. split; [done|].
    rewrite (bool_decide_eq_true_2 (text !! 0 = Some "*"%char)) by done.
    by rewrite orb_true_r. }
  rewrite (bool_decide_eq_false_2 (text !! 0 = Some "*"%char)) by done.
  rewrite (bool_decide_eq_false_2 (text = ["*"%char]))
    by (intros Heq; by rewrite Heq in Hstar).
  destruct (decide (text !! 0 = Some "+"%char)) as [Hplus|Hplus].
  { right. right. left. split; [done|].
    rewrite (bool_decide_eq_true_2 (text !! 0 = Some "+"%char)) by done.
    by rewrite orb_true_r. }
  rewrite (bool_decide_eq_false_2 (text !! 0 = Some "+"%char)) by done.
  rewrite (bool_decide_eq_false_2 (text = ["+"%char]))
    by (intros Heq; by rewrite Heq in Hplus).
  cbn [orb]. right. right. right.
  destruct (init_loop_cases text 0 fuel fuel [Object StartState []] [] 0)
    as [(-> & k & _ & Hopen & Hnone)|(h & states & -> & Hsteps)];
    [lia..| |].
  { left. split; [by exists k|done]. }
  right. split.
  - intros [?|[?|[?|(k & Hopen & Hnone)]]]; [done..|].
    destruct (compile_steps_closed text 0 _ _ Hsteps k) as (m & Hm & Hclose);
      [|done|by apply (Hnone m)].
    simpl. apply lookup_lt_Some in Hopen. unfold text. lia.
  - exists h, states. split; [done|].
    cbn [mbind outcome_bind]. unfold finish.
    destruct (new h TerminationState) as [h' term_state].
    by case_bool_decide.
Qed.

Lemma RegexFSM_init_cases (regex_expr : string) :
  let text := String.list_ascii_of_string regex_expr in
  (rejected_pattern regex_expr
   ∧ ∃ msg, RegexFSM_init regex_expr = Raise (ValueError msg))
  ∨ (¬ rejected_pattern regex_expr
     ∧ ∃ h states,
         rtc (compile_step text 0)
             ([Object StartState []], [], 0) (h, states, length text)
         ∧ RegexFSM_init regex_expr
           = Return {| objects := finish 0 h states; start_state := 0 |}).
Proof.
  intros text. unfold RegexFSM_init.
  destruct (RegexFSM_init_fuel_cases (S (String.length regex_expr))
              regex_expr ltac:(lia))
    as [[? ->]|[[? ->]|[[? ->]|[[? ->]|[? ?]]]]];
    [left; split; [unfold rejected_pattern; tauto|by eexists]..|by right].
Qed.

(** Spare fuel does not change the outcome of the compiler. *)

Lemma scan_loop_fuel fuel1 fuel2 (regex_expr : list ascii) j :
  length regex_expr - j < fuel1 →
  length regex_expr - j < fuel2 →
  scan_loop fuel1 regex_expr j = scan_loop fuel2 regex_expr j.
Proof.
  revert fuel2 j. induction fuel1 as [|fuel1 IH]; intros fuel2 j H1 H2; [lia|].
  destruct fuel2 as [|fuel2]; [lia|]. simpl.
  destruct (regex_expr !! j) as [c|] eqn:Hc; [|done].
  apply lookup_lt_Some in Hc. case_bool_decide; [|done]. apply IH; lia.
Qed.

Lemma init_body_gas gas1 gas2 (regex_expr : list ascii) start_state h states
    i char :
  length regex_expr < gas1 →
  length regex_expr < gas2 →
  init_body gas1 regex_expr start_state h states i char
  = init_body gas2 regex_expr start_state h states i char.
Proof.
  intros H1 H2. unfold init_body.
  by rewrite (scan_loop_fuel gas1 gas2) by lia.
Qed.

Lemma init_loop_fuel fuel1 fuel2 gas1 gas2 (regex_expr : list ascii)
    start_state h states i :
  length regex_expr - i < fuel1 →
  length regex_expr - i < fuel2 →
  length regex_expr < gas1 →
  length regex_expr < gas2 →
  init_loop fuel1 gas1 regex_expr start_state h states i
  = init_loop fuel2 gas2 regex_expr start_state h states i.
Proof.
  revert fuel2 h states i.
  induction fuel1 as [|fuel1 IH]; intros fuel2 h states i H1 H2 Hg1 Hg2;
    [lia|].
  destruct fuel2 as [|fuel2]; [lia|]. simpl.
  destruct (regex_expr !! i) as [char|] eqn:Hchar; [|done].
  rewrite (init_body_gas gas1 gas2) by done.
  destruct (init_body_cases regex_expr start_state gas2 h states i char
              Hg2 Hchar)
    as [(-> & _)|([[h1 states1] i1] & -> & Hstep)]; [done|].
  apply compile_step_index in Hstep. simpl. apply IH; lia.
Qed.

Lemma RegexFSM_init_fuel_enough fuel (regex_expr : string) :
  String.length regex_expr < fuel →
  RegexFSM_init_fuel fuel regex_expr = RegexFSM_init regex_expr.
Proof.
  intros Hfuel. unfold RegexFSM_init, RegexFSM_init_fuel.
  pose proof (length_list_ascii_of_string regex_expr) as Hlen.
  change (new [] StartState) with ([Object StartState []], 0).
  cbv iota beta.
  by rewrite (init_loop_fuel fuel (S (String.length regex_expr))
                fuel (S (String.length regex_expr))) by lia.
Qed.

(** ** Character classes *)

Lemma existsb_in_range char char_ranges :
  existsb (in_range char) char_ranges
  = bool_decide (Exists (λ r, ord r.1 ≤ ord char ≤ ord r.2) char_ranges).
Proof.
  apply eq_true_iff_eq.
  rewrite existsb_exists, bool_decide_eq_true, Exists_exists.
  unfold in_range. split; intros (r & Hr & Hin); exists r.
  - apply andb_true_iff in Hin as [H1%Nat.leb_le H2%Nat.leb_le].
    split; [by apply list_elem_of_In|lia].
  - split; [by apply list_elem_of_In|].
    apply andb_true_iff. rewrite !Nat.leb_le. lia.
Qed.

Lemma check_self_in_class char_ranges (individual_chars : gset ascii) negated
    char :
  check_self (CharacterClassState char_ranges individual_chars negated) char
  = xorb (bool_decide (in_class char_ranges individual_chars char)) negated.
Proof.
  rewrite check_self_class, existsb_in_range. f_equal.
  unfold in_class.
  destruct (decide (Exists (λ r, ord r.1 ≤ ord char ≤ ord r.2) char_ranges)),
           (decide (char ∈ individual_chars)).
  - rewrite !bool_decide_eq_true_2 by tauto. done.
  - rewrite (bool_decide_eq_true_2 (Exists _ _)) by done.
    rewrite (bool_decide_eq_true_2 (_ ∨ _)) by tauto. done.
  - rewrite (bool_decide_eq_false_2 (Exists _ _)) by done.
    rewrite !bool_decide_eq_true_2 by tauto. done.
  - rewrite !bool_decide_eq_false_2 by tauto. done.
Qed.

(** ** Matching *)

Lemma valid_order_id : valid_order id.
Proof. intros l. reflexivity. Defined.

Lemma valid_order_reverse : valid_order reverse.
Proof. intros l. apply reverse_Permutation. Qed.

Lemma check_string_agree order1 order2 (self : RegexFSM) input_str :
  valid_order order1 → valid_order order2 →
  check_string order1 self input_str = check_string order2 self input_str.
Proof.
  intros H1 H2. unfold check_string.
  by apply (check_string_fuel_agree order1 order2 H1 H2).
Qed.

Lemma eps_reach_idempotent (h : list object) (states closure : gset ref) x :
  (∀ y, y ∈ closure ↔ eps_reach h states y) →
  eps_reach h closure x ↔ eps_reach h states x.
Proof.
  intros Hclosure. split.
  - induction 1 as [y Hy|y z _ IH Hz Hstar]; [by apply Hclosure|].
    by eapply eps_reach_star.
  - induction 1 as [y Hy|y z _ IH Hz Hstar].
    + apply eps_reach_start, Hclosure. by apply eps_reach_start.
    + by eapply eps_reach_star.
Qed.

(** ** The ranges of the compiled classes *)

Lemma parse_class_body_written n (body : list ascii) low high :
  length body ≤ n →
  (low, high) ∈ (parse_class_body body).1 →
  written_range body low high.
Proof.
  revert body. induction n as [|n IH]; intros body Hlen Hin.
  { destruct body; [|simpl in Hlen; lia]. by apply elem_of_nil in Hin. }
  destruct body as [|c rest]; [by apply elem_of_nil in Hin|].
  simpl in Hlen.
  assert ((∃ e rest', rest = "-"%char :: e :: rest')
          ∨ ∀ e rest', rest ≠ "-"%char :: e :: rest')
    as [(e & rest' & ->)|Hsingle].
  { destruct rest as [|d [|e rest']]; [by right..|].
    destruct (decide (d = "-"%char)) as [->|Hd]; [left; by eauto|].
    right. by intros ? ? [= -> _ _]. }
  - rewrite parse_class_body_range in Hin. simpl in Hin, Hlen.
    apply elem_of_cons in Hin as [[= -> ->]|Hin].
    + by exists 0.
    + destruct (IH rest' ltac:(lia) Hin) as (i & H1 & H2 & H3).
      exists (3 + i). done.
  - rewrite parse_class_body_single in Hin by done. simpl in Hin.
    destruct (IH rest ltac:(lia) Hin) as (i & H1 & H2 & H3).
    exists (1 + i). done.
Qed.

Lemma written_range_drop k (text : list ascii) low high :
  written_range (drop k text) low high → written_range text low high.
Proof.
  intros (i & H1 & H2 & H3). rewrite !lookup_drop in H1, H2, H3.
  exists (k + i). by rewrite <- !Nat.add_assoc.
Qed.

Lemma written_range_take k (text : list ascii) low high :
  written_range (take k text) low high → written_range text low high.
Proof.
  intros (i & H1 & H2 & H3). exists i.
  apply lookup_take_Some in H1 as [H1 _].
  apply lookup_take_Some in H2 as [H2 _].
  by apply lookup_take_Some in H3 as [H3 _].
Qed.

Lemma class_of_body_written (body : list ascii) low high :
  (low, high) ∈ ranges_of (class_of_body body) →
  written_range body low high.
Proof.
  unfold class_of_body.
  destruct (parse_class_body _) as [ranges singles] eqn:Hparse.
  simpl. intros Hin.
  assert ((low, high) ∈ (parse_class_body
            (if bool_decide (head body = Some "^"%char) then tail body
             else body)).1) as Hin' by by rewrite Hparse.
  apply (parse_class_body_written _ _ _ _ (le_n _)) in Hin'.
  case_bool_decide; [|done].
  destruct body as [|c body]; [done|]. by apply (written_range_drop 1).
Qed.

Section Ranges.

Variable text : list ascii.

Lemma ranges_written_new h c :
  ranges_written text h →
  (∀ low high, (low, high) ∈ ranges_of c → written_range text low high) →
  ranges_written text (new h c).1.
Proof.
  intros Hh Hc o low high [Ho|Ho]%elem_of_app Hin; [by eapply Hh|].
  apply list_elem_of_singleton in Ho as ->. by apply Hc.
Qed.

Lemma ranges_written_alter h r (f : object → object) :
  (∀ o, cls (f o) = cls o) →
  ranges_written text h → ranges_written text (alter f r h).
Proof.
  intros Hf Hh o low high Ho Hin.
  apply list_elem_of_lookup in Ho as [i Ho].
  rewrite list_lookup_alter in Ho. case_decide as Hi.
  - subst i. destruct (h !! r) as [o'|] eqn:Hr; [|done].
    injection Ho as <-. rewrite Hf in Hin.
    eapply Hh; [|done]. by eapply list_elem_of_lookup_2.
  - eapply Hh; [|done]. by eapply list_elem_of_lookup_2.
Qed.

Lemma ranges_written_append_next h r x :
  ranges_written text h → ranges_written text (append_next h r x).
Proof. by apply ranges_written_alter. Qed.

Lemma ranges_written_remove_next h r x :
  ranges_written text h → ranges_written text (remove_next h r x).
Proof. by apply ranges_written_alter. Qed.

Lemma ranges_written_lookup_total h r low high :
  ranges_written text h →
  (low, high) ∈ ranges_of (cls (h !!! r)) → written_range text low high.
Proof.
  intros Hh Hin. destruct (decide (r < length h)) as [Hr|Hr].
  - eapply Hh; [|done]. apply list_elem_of_lookup. exists r.
    by apply list_lookup_lookup_total_lt.
  - rewrite lookup_total_out_of_range in Hin by lia.
    by apply elem_of_nil in Hin.
Qed.

Lemma ranges_written_quantify wrap start_state h states :
  (∀ c, ranges_of (wrap c) = ranges_of c) →
  ranges_written text h →
  ranges_written text (quantify wrap start_state h states).1.
Proof.
  intros Hwrap Hh. unfold quantify. simpl.
  apply ranges_written_append_next, ranges_written_append_next,
    ranges_written_remove_next.
  apply (ranges_written_new h); [done|].
  intros low high. rewrite Hwrap.
  by apply ranges_written_lookup_total.
Qed.

Lemma ranges_written_link start_state h states c :
  ranges_written text h →
  (∀ low high, (low, high) ∈ ranges_of c → written_range text low high) →
  ranges_written text (link start_state h states c).1.
Proof.
  intros Hh Hc. unfold link. simpl.
  by apply ranges_written_append_next, (ranges_written_new h).
Qed.

Lemma ranges_written_step start_state a b :
  compile_step text start_state a b →
  ranges_written text a.1.1 → ranges_written text b.1.1.
Proof.
  destruct 1 as [h states i|h states i|h states i j|h states i char];
    simpl; intros Hh.
  - by apply ranges_written_quantify.
  - by apply ranges_written_quantify.
  - apply ranges_written_link; [done|]. intros low high Hin.
    apply class_of_body_written in Hin.
    by eapply written_range_drop, written_range_take.
  - apply ranges_written_link; [done|]. intros low high.
    unfold literal_state. case_bool_decide; simpl; by rewrite elem_of_nil.
Qed.

Lemma ranges_written_steps start_state a b :
  rtc (compile_step text start_state) a b →
  ranges_written text a.1.1 → ranges_written text b.1.1.
Proof.
  induction 1 as [|a b c Hstep _ IH]; [done|].
  intros Ha. by eapply IH, ranges_written_step.
Qed.

Lemma ranges_written_finish start_state h states :
  ranges_written text h →
  ranges_written text (finish start_state h states).
Proof.
  intros Hh. unfold finish. simpl.
  case_bool_decide; apply ranges_written_append_next;
    apply (ranges_written_new h); try done;
    intros low high Hin; by apply elem_of_nil in Hin.
Qed.

End Ranges.

(** ** Patterns of literal characters and dots: the compiled chain *)

Lemma length_chain k cs : length (chain k cs) = length cs.
Proof. revert k. induction cs as [|c cs IH]; intros k; simpl; auto. Qed.

Lemma chain_snoc k cs c :
  cs ≠ [] →
  append_next (chain k cs ++ [Object c []]) (length cs - 1) (k + length cs)
  = chain k (cs ++ [c]).
Proof.
  revert k. induction cs as [|c0 cs IH]; intros k Hne; [done|].
  destruct cs as [|c1 cs].
  - simpl. unfold append_next, set_next_states. simpl.
    by rewrite Nat.add_1_r.
  - specialize (IH (S k) ltac:(done)).
    change (chain k (c0 :: c1 :: cs))
      with (Object c0 [S k] :: chain (S k) (c1 :: cs)).
    change (chain k ((c0 :: c1 :: cs) ++ [c]))
      with (Object c0 [S k] :: chain (S k) ((c1 :: cs) ++ [c])).
    rewrite <- IH. unfold append_next.
    replace (length (c0 :: c1 :: cs) - 1) with (S (length (c1 :: cs) - 1))
      by (simpl; lia).
    replace (k + length (c0 :: c1 :: cs)) with (S k + length (c1 :: cs))
      by (simpl; lia).
    done.
Qed.

Lemma lookup_chain k cs i :
  chain k cs !! i
  = (λ c, Object c (if bool_decide (S i < length cs) then [k + S i] else []))
    <$> cs !! i.
Proof.
  revert k i. induction cs as [|c cs IH]; intros k i; [done|].
  destruct i as [|i].
  - simpl. destruct cs as [|c1 cs]; simpl; [done|].
    by rewrite Nat.add_1_r.
  - simpl. rewrite IH. destruct (cs !! i); simpl; [|done].
    rewrite (bool_decide_ext (S (S i) < S (length cs)) (S i < length cs))
      by lia.
    by replace (S (k + S i)) with (k + S (S i)) by lia.
Qed.

Lemma from_end_seq n : 0 < n → from_end (seq 1 n) 1 = n.
Proof.
  intros Hn. unfold from_end. rewrite length_seq.
  apply list_lookup_total_correct. rewrite lookup_seq_lt by lia. f_equal. lia.
Qed.

Lemma link_chain cs c :
  cs ≠ [] →
  link 0 (chain 0 cs) (seq 1 (length cs - 1)) c
  = (chain 0 (cs ++ [c]), seq 1 (length cs)).
Proof.
  intros Hne. unfold link, new. rewrite length_chain.
  assert (0 < length cs) as Hlen by (destruct cs; [done|simpl; lia]).
  f_equal.
  - rewrite <- chain_snoc by done. f_equal.
    destruct (decide (length cs - 1 = 0)) as [Hz|Hz].
    + rewrite Hz. simpl. done.
    + rewrite bool_decide_eq_true_2.
      * apply from_end_seq. lia.
      * intros Hnil. apply (f_equal length) in Hnil.
        rewrite length_seq in Hnil. simpl in Hnil. lia.
  - transitivity (seq 1 (S (length cs - 1))); [|f_equal; lia].
    rewrite seq_S. do 2 f_equal. lia.
Qed.

Lemma finish_chain cs :
  cs ≠ [] →
  finish 0 (chain 0 cs) (seq 1 (length cs - 1))
  = chain 0 (cs ++ [TerminationState]).
Proof.
  intros Hne. unfold finish, new. rewrite length_chain.
  assert (0 < length cs) as Hlen by (destruct cs; [done|simpl; lia]).
  rewrite <- chain_snoc by done.
  destruct (decide (length cs - 1 = 0)) as [Hz|Hz].
  - rewrite Hz. simpl. done.
  - rewrite bool_decide_eq_true_2.
    + by rewrite from_end_seq by lia.
    + intros Hnil. apply (f_equal length) in Hnil.
      rewrite length_seq in Hnil. simpl in Hnil. lia.
Qed.

Section Plain.

Variable text : list ascii.
Hypothesis text_plain : Forall plain_char text.

Lemma plain_step h states i next :
  compile_step text 0 (h, states, i) next →
  h = plain_store text i → states = seq 1 i → i ≤ length text →
  next = (plain_store text (i + 1), seq 1 (i + 1), i + 1).
Proof.
  intros Hstep -> -> Hi.
  assert (∀ c, text !! i = Some c → plain_char c) as Hplain.
  { intros c Hc. by eapply Forall_lookup_1. }
  inversion Hstep as [? ? ? Hc|? ? ? Hc|? ? ? j Hc|? ? ? char Hc]; subst;
    try (destruct (Hplain _ Hc) as (? & ? & ?); done).
  clear Hstep. f_equal. unfold plain_store.
  pose proof (lookup_lt_Some _ _ _ Hc) as Hlt.
  replace (i + 1) with (S i) by lia.
  pose proof (link_chain (StartState :: (literal_state <$> take i text))
                (literal_state char) ltac:(done)) as Hlink.
  rewrite length_cons, length_fmap, length_take_le in Hlink by lia.
  replace (S i - 1) with i in Hlink by lia.
  rewrite Hlink. by rewrite (take_S_r _ _ _ Hc), fmap_app.
Qed.

Lemma plain_steps a b :
  rtc (compile_step text 0) a b →
  a.1.1 = plain_store text a.2 → a.1.2 = seq 1 a.2 → a.2 ≤ length text →
  b.1.1 = plain_store text b.2 ∧ b.1.2 = seq 1 b.2.
Proof.
  induction 1 as [|[[h states] i] b c Hstep _ IH]; [done|].
  simpl. intros Hh Hstates Hi.
  pose proof (plain_step _ _ _ _ Hstep Hh Hstates Hi) as ->.
  pose proof (compile_step_index _ _ _ _ _ _ _ _ Hstep) as Hidx.
  apply IH; simpl; [done..|lia].
Qed.

End Plain.

Lemma RegexFSM_init_plain (regex_expr : string) (self : RegexFSM) :
  plain_pattern regex_expr →
  RegexFSM_init regex_expr = Return self →
  self = {| objects :=
              chain 0 (StartState
                       :: (literal_state
                           <$> String.list_ascii_of_string regex_expr)
                       ++ [TerminationState]);
            start_state := 0 |}.
Proof.
  intros Hplain Hself.
  destruct (RegexFSM_init_cases regex_expr)
    as [[_ [msg Hmsg]]|[_ (h & states & Hsteps & Hret)]]; [congruence|].
  rewrite Hret in Hself. injection Hself as <-.
  destruct (plain_steps _ Hplain _ _ Hsteps) as [Hh Hstates];
    [done..|simpl; lia|].
  simpl in Hh, Hstates. subst h states. f_equal.
  unfold plain_store. rewrite firstn_all.
  pose proof (finish_chain
                (StartState
                 :: (literal_state
                     <$> String.list_ascii_of_string regex_expr))
                ltac:(done)) as Hfinish.
  rewrite length_cons, length_fmap in Hfinish.
  replace (S (length (String.list_ascii_of_string regex_expr)) - 1)
    with (length (String.list_ascii_of_string regex_expr)) in Hfinish by lia.
  by rewrite Hfinish.
Qed.

(** ** Searches in a graph without [StarState] *)

Section NoStar.

Variable set_order : list ref → list ref.
Hypothesis set_order_valid : valid_order set_order.

Variable h : list object.
Hypothesis no_star : ∀ y, is_StarState (cls (h !!! y)) = false.

Lemma eps_reach_no_star (states : gset ref) x :
  eps_reach h states x ↔ x ∈ states.
Proof.
  split; [|by constructor].
  intros [x' Hx|x' y _ _ Hstar]; [done|]. by rewrite no_star in Hstar.
Qed.

Lemma add_epsilon_transitions_no_star fuel (states : gset ref) :
  size states + edges h < fuel →
  _add_epsilon_transitions set_order fuel h states = Return states.
Proof.
  intros Hfuel.
  destruct (add_epsilon_transitions_reach set_order set_order_valid h
              fuel states Hfuel) as (res & -> & Hres).
  f_equal. apply set_eq. intros x. by rewrite Hres, eps_reach_no_star.
Qed.

Lemma can_terminate_no_star fuel (states : gset ref) :
  size states + edges h < fuel →
  ∃ b, _can_terminate_without_input set_order fuel h states = Return b
       ∧ (b = true ↔ ∃ x, x ∈ states ∧ has_termination_successor h x).
Proof.
  intros Hfuel.
  destruct (can_terminate_reach set_order set_order_valid h fuel states
              Hfuel) as (b & Hb & Hiff).
  exists b. split; [done|]. rewrite Hiff.
  by setoid_rewrite eps_reach_no_star.
Qed.

End NoStar.

(** ** Matching against a pattern of literal characters and dots *)

Lemma plain_matches_literal_dot_match pattern input :
  plain_matches pattern input = true ↔ literal_dot_match pattern input.
Proof.
  unfold literal_dot_match. revert input.
  induction pattern as [|c pattern IH]; intros [|d input]; simpl.
  - split; [|done]. intros _. split; [done|]. by intros i c d Hc.
  - split; [done|]. by intros [? _].
  - split; [done|]. by intros [? _].
  - rewrite andb_true_iff, orb_true_iff, !bool_decide_eq_true, IH. split.
    + intros [Hhead [Hlen Hall]]. split; [by rewrite Hlen|].
      intros [|i] c' d' Hc Hd; simpl in Hc, Hd; [naive_solver|].
      by eapply Hall.
    + intros [Hlen Hall]. split_and!.
      * by apply (Hall 0).
      * by injection Hlen.
      * intros i c' d' Hc Hd. by apply (Hall (S i)).
Qed.

Lemma check_self_literal_state c d :
  check_self (literal_state c) d
  = bool_decide (c = "."%char) || bool_decide (c = d).
Proof. unfold literal_state. by case_bool_decide. Qed.

Section PlainMatch.

Variable set_order : list ref → list ref.
Hypothesis set_order_valid : valid_order set_order.

Variable text : list ascii.

Lemma plain_length_cs : length (plain_states text) = length text + 2.
Proof. unfold plain_states. simpl. rewrite length_app, length_fmap. simpl. lia. Qed.

Lemma plain_lookup k c :
  (plain_states text) !! k = Some c →
  (plain_graph text) !!! k
  = Object c (if bool_decide (k ≤ length text) then [S k] else []).
Proof.
  intros Hc. apply list_lookup_total_correct. unfold plain_graph.
  rewrite lookup_chain, Hc. simpl. do 2 f_equal.
  rewrite length_app, length_fmap. simpl.
  repeat case_bool_decide; (done || lia).
Qed.

Lemma plain_cs_cases k c :
  (plain_states text) !! k = Some c →
  (k = 0 ∧ c = StartState)
  ∨ (∃ a, text !! (k - 1) = Some a ∧ 0 < k ∧ c = literal_state a)
  ∨ (k = S (length text) ∧ c = TerminationState).
Proof.
  unfold plain_states. destruct k as [|k]; simpl; [intros [= <-]; by left|].
  intros Hc. right. rewrite Nat.sub_0_r.
  apply lookup_app_Some in Hc as [Hc|[Hlen Hc]].
  - left. rewrite list_lookup_fmap in Hc.
    destruct (text !! k) as [a|]; [|done]. injection Hc as <-.
    exists a. split_and!; [done|lia|done].
  - right. rewrite length_fmap in Hlen, Hc.
    apply list_lookup_singleton_Some in Hc as [Hk <-]. split; [lia|done].
Qed.

Lemma plain_no_star y : is_StarState (cls ((plain_graph text) !!! y)) = false.
Proof.
  destruct ((plain_states text) !! y) as [c|] eqn:Hc.
  - rewrite (plain_lookup _ _ Hc). simpl.
    destruct (plain_cs_cases _ _ Hc)
      as [[_ ->]|[(a & _ & _ & ->)|[_ ->]]]; [done| |done].
    unfold literal_state. by case_bool_decide.
  - rewrite lookup_total_out_of_range; [done|].
    apply lookup_ge_None in Hc. unfold plain_graph. by rewrite length_chain.
Qed.

Lemma plain_next k :
  k ≤ length text → next_states ((plain_graph text) !!! k) = [S k].
Proof.
  intros Hk.
  destruct (lookup_lt_is_Some_2 (plain_states text) k) as [c Hc];
    [rewrite plain_length_cs; lia|].
  rewrite (plain_lookup _ _ Hc). simpl.
  by rewrite bool_decide_eq_true_2.
Qed.

Lemma plain_cls_literal k a :
  text !! k = Some a → cls ((plain_graph text) !!! S k) = literal_state a.
Proof.
  intros Ha. rewrite (plain_lookup (S k) (literal_state a)); [done|].
  unfold plain_states. simpl. rewrite lookup_app_l, list_lookup_fmap, Ha; [done|].
  rewrite length_fmap. by eapply lookup_lt_Some.
Qed.

Lemma plain_cls_termination :
  cls ((plain_graph text) !!! S (length text)) = TerminationState.
Proof.
  rewrite (plain_lookup (S (length text)) TerminationState); [done|].
  unfold plain_states. simpl. rewrite lookup_app_r; rewrite length_fmap; [|done].
  by rewrite Nat.sub_diag.
Qed.

Lemma plain_has_termination_successor k :
  k ≤ length text →
  has_termination_successor (plain_graph text) k ↔ k = length text.
Proof.
  intros Hk. unfold has_termination_successor.
  rewrite (plain_next k Hk). split.
  - intros (y & Hy%list_elem_of_singleton & Hterm). subst y.
    destruct (decide (k = length text)) as [|Hne]; [done|].
    destruct (lookup_lt_is_Some_2 text k) as [a Ha]; [lia|].
    rewrite (plain_cls_literal _ _ Ha) in Hterm.
    unfold literal_state in Hterm. by case_bool_decide.
  - intros ->. exists (S (length text)).
    split; [by apply list_elem_of_singleton|].
    by rewrite plain_cls_termination.
Qed.

Lemma plain_step_empty k d :
  k ≤ length text →
  (∀ a, text !! k = Some a → check_self (literal_state a) d = false) →
  step set_order (plain_graph text) {[k]} d = ∅.
Proof.
  intros Hk Hreject. apply set_eq. intros y.
  rewrite (elem_of_step set_order set_order_valid). split; [|set_solver].
  intros (x & Hx%elem_of_singleton & Hy & Hcheck). subst x.
  rewrite (plain_next k Hk) in Hy.
  apply list_elem_of_singleton in Hy as ->. exfalso.
  destruct (text !! k) as [a|] eqn:Ha.
  - rewrite (plain_cls_literal _ _ Ha), (Hreject a eq_refl) in Hcheck.
    done.
  - apply lookup_ge_None in Ha. assert (k = length text) as -> by lia.
    by rewrite plain_cls_termination in Hcheck.
Qed.

Lemma plain_step_next k a d :
  text !! k = Some a →
  check_self (literal_state a) d = true →
  step set_order (plain_graph text) {[k]} d = {[S k]}.
Proof.
  intros Ha Haccept. pose proof (lookup_lt_Some _ _ _ Ha) as Hk.
  apply set_eq. intros y.
  rewrite (elem_of_step set_order set_order_valid), elem_of_singleton.
  split.
  - intros (x & Hx%elem_of_singleton & Hy & _). subst x.
    rewrite plain_next in Hy by lia. by apply list_elem_of_singleton in Hy.
  - intros ->. exists k. split_and!; [set_solver| |].
    + rewrite plain_next by lia. by apply list_elem_of_singleton.
    + by rewrite (plain_cls_literal _ _ Ha), Haccept.
Qed.

Lemma plain_run fuel input k :
  2 * edges (plain_graph text) + 2 ≤ fuel →
  k ≤ length text →
  run set_order fuel (plain_graph text) {[k]} input
  = Return (plain_matches (drop k text) input).
Proof.
  intros Hfuel. revert k.
  assert (∀ k : nat, size ({[k]} : gset ref) + edges (plain_graph text) < fuel) as Hsize.
  { intros k. rewrite size_singleton. lia. }
  induction input as [|d input IH]; intros k Hk.
  - simpl.
    destruct (can_terminate_no_star set_order set_order_valid (plain_graph text)
                plain_no_star fuel {[k]} (Hsize k)) as (b & -> & Hb).
    f_equal. apply eq_true_iff_eq. rewrite Hb.
    setoid_rewrite elem_of_singleton.
    transitivity (k = length text).
    + split; [intros (x & -> & Hx)|intros ->].
      * by apply plain_has_termination_successor.
      * exists (length text). split; [done|].
        by apply plain_has_termination_successor.
    + destruct (drop k text) as [|a rest] eqn:Hdrop; simpl.
      * split; [done|]. intros _. apply (f_equal length) in Hdrop.
        rewrite length_drop in Hdrop. simpl in Hdrop. lia.
      * split; [|done]. intros ->. by rewrite drop_all in Hdrop.
  - simpl. destruct (text !! k) as [a|] eqn:Ha.
    + rewrite (drop_S _ _ _ Ha). simpl.
      rewrite <- check_self_literal_state.
      destruct (check_self (literal_state a) d) eqn:Hcheck.
      * rewrite (plain_step_next _ _ _ Ha Hcheck).
        rewrite bool_decide_eq_false_2 by set_solver.
        rewrite (add_epsilon_transitions_no_star set_order
                   set_order_valid (plain_graph text) plain_no_star) by done.
        cbn [mbind outcome_bind andb].
        apply IH. apply lookup_lt_Some in Ha. lia.
      * rewrite plain_step_empty; [|done|].
        -- by rewrite bool_decide_eq_true_2.
        -- intros a' Ha'. by assert (a' = a) as -> by congruence.
    + rewrite plain_step_empty; [|done|intros a' Ha'; congruence].
      rewrite bool_decide_eq_true_2 by done.
      apply lookup_ge_None in Ha. by rewrite drop_ge.
Qed.

End PlainMatch.

Lemma plain_pattern_not_rejected (regex_expr : string) :
  plain_pattern regex_expr → regex_expr ≠ "" →
  ¬ rejected_pattern regex_expr.
Proof.
  unfold plain_pattern, rejected_pattern. intros Hplain Hne.
  assert (∀ k c, String.list_ascii_of_string regex_expr !! k = Some c →
                 plain_char c) as Hchar.
  { intros k c Hc. by eapply Forall_lookup_1. }
  intros [Hnil|[Hstar|[Hplus|(k & Hopen & _)]]].
  - destruct regex_expr; [done|]. discriminate Hnil.
  - by destruct (Hchar _ _ Hstar) as (? & _ & _).
  - by destruct (Hchar _ _ Hplus) as (_ & ? & _).
  - by destruct (Hchar _ _ Hopen) as (_ & _ & ?).
Qed.

(** ** The number of successors of a compiled object *)

Lemma lookup_total_new (h : list object) c j :
  (new h c).1 !!! j = if bool_decide (j = length h) then Object c [] else h !!! j.
Proof.
  unfold new. simpl. case_bool_decide as Hj.
  - subst j. by rewrite list_lookup_total_middle.
  - destruct (decide (j < length h)) as [Hlt|Hge].
    + by rewrite lookup_total_app_l.
    + rewrite !lookup_total_out_of_range; [done|lia|].
      rewrite length_app. simpl. lia.
Qed.

Lemma next_states_append_next (h : list object) r x j :
  next_states (append_next h r x !!! j)
  = if bool_decide (r = j ∧ r < length h) then next_states (h !!! j) ++ [x]
    else next_states (h !!! j).
Proof.
  unfold append_next. rewrite list_lookup_total_alter.
  case_decide as Hr.
  - rewrite bool_decide_eq_true_2 by done. by destruct Hr as [-> _].
  - by rewrite bool_decide_eq_false_2.
Qed.

Lemma next_states_remove_next (h : list object) r x j :
  next_states (remove_next h r x !!! j)
  = if bool_decide (r = j ∧ r < length h)
    then filter (λ s, s ≠ x) (next_states (h !!! j))
    else next_states (h !!! j).
Proof.
  unfold remove_next. rewrite list_lookup_total_alter.
  case_decide as Hr.
  - rewrite bool_decide_eq_true_2 by done. by destruct Hr as [-> _].
  - by rewrite bool_decide_eq_false_2.
Qed.

Lemma length_append_next (h : list object) r x :
  length (append_next h r x) = length h.
Proof. apply length_alter. Qed.

Lemma length_remove_next (h : list object) r x :
  length (remove_next h r x) = length h.
Proof. apply length_alter. Qed.

Lemma length_new (h : list object) c : length (new h c).1 = S (length h).
Proof. unfold new. simpl. rewrite length_app. simpl. lia. Qed.

Lemma from_end_snoc (states : list ref) x : from_end (states ++ [x]) 1 = x.
Proof.
  unfold from_end. rewrite length_app. simpl.
  replace (length states + 1 - 1) with (length states) by lia.
  by rewrite list_lookup_total_middle.
Qed.

Lemma parent_of_snoc start_state (states : list ref) x :
  parent_of start_state (states ++ [x]) = last_of start_state states.
Proof.
  unfold parent_of, last_of, from_end. rewrite length_app. simpl.
  destruct states as [|r states].
  - by rewrite !bool_decide_eq_false_2 by (simpl; (lia || tauto)).
  - rewrite !bool_decide_eq_true_2 by (simpl; (lia || done)).
    apply list_lookup_total_correct.
    rewrite lookup_app_l by (simpl; lia).
    replace (length (r :: states) + 1 - 2) with (length (r :: states) - 1)
      by (simpl; lia).
    apply list_lookup_lookup_total_lt. simpl. lia.
Qed.

Lemma last_of_elem start_state (states : list ref) (bound : nat) :
  start_state < bound → Forall (λ r, r < bound) states →
  last_of start_state states < bound.
Proof.
  intros Hstart Hstates. unfold last_of, from_end.
  case_bool_decide as Hne; [|done].
  apply (Forall_lookup_1 _ _ (length states - 1) _ Hstates).
  apply list_lookup_lookup_total_lt.
  destruct states; [done|simpl; lia].
Qed.

Lemma parent_of_elem start_state (states : list ref) (bound : nat) :
  start_state < bound → Forall (λ r, r < bound) states →
  parent_of start_state states < bound.
Proof.
  intros Hstart Hstates. unfold parent_of, from_end.
  case_bool_decide as Hlen; [|done].
  apply (Forall_lookup_1 _ _ (length states - 2) _ Hstates).
  apply list_lookup_lookup_total_lt. lia.
Qed.

Lemma degree_inv_link start_state h states c :
  degree_inv start_state h states →
  degree_inv start_state (link start_state h states c).1
                         (link start_state h states c).2.
Proof.
  intros (Hstart & Hstates & Hdeg & Hlast & Hparent).
  unfold link. simpl. fold (last_of start_state states).
  pose proof (last_of_elem _ _ _ Hstart Hstates) as Hl.
  set (L := last_of start_state states) in *.
  assert (∀ j, next_states
                 (append_next (h ++ [Object c []]) L (length h) !!! j)
               = if bool_decide (j = L) then next_states (h !!! L) ++ [length h]
                 else if bool_decide (j = length h) then []
                 else next_states (h !!! j)) as Hnext.
  { intros j. rewrite next_states_append_next.
    change (h ++ [Object c []]) with (new h c).1.
    rewrite lookup_total_new, length_new.
    destruct (decide (j = L)) as [->|Hj].
    - rewrite (bool_decide_eq_true_2 (L = L ∧ _)) by (split; [done|lia]).
      rewrite (bool_decide_eq_false_2 (L = length h)) by lia.
      by rewrite (bool_decide_eq_true_2 (L = L)) by done.
    - rewrite (bool_decide_eq_false_2 (L = j ∧ _)) by naive_solver.
      rewrite (bool_decide_eq_false_2 (j = L)) by done.
      by case_bool_decide. }
  unfold degree_inv, out_degree.
  rewrite length_append_next, length_app. simpl.
  split_and!.
  - lia.
  - apply Forall_app. split.
    + eapply Forall_impl; [done|]. simpl. lia.
    + apply Forall_singleton. lia.
  - intros r. rewrite Hnext. repeat case_bool_decide.
    + rewrite length_app. simpl. unfold out_degree in Hlast. lia.
    + simpl. lia.
    + apply Hdeg.
  - unfold last_of. rewrite bool_decide_eq_true_2 by (by destruct states).
    rewrite from_end_snoc, Hnext.
    rewrite bool_decide_eq_false_2 by lia.
    rewrite bool_decide_eq_true_2 by done. simpl. lia.
  - intros _. rewrite from_end_snoc, parent_of_snoc. fold L.
    rewrite Hnext, bool_decide_eq_true_2 by done.
    rewrite filter_app. rewrite (filter_cons_False _ (length h)) by tauto.
    rewrite filter_nil, app_nil_r.
    etrans; [apply length_filter|]. apply Hlast.
Qed.

Lemma from_end_insert_last (states : list ref) x :
  states ≠ [] → from_end (<[length states - 1 := x]> states) 1 = x.
Proof.
  intros Hne. unfold from_end. rewrite length_insert.
  apply list_lookup_total_insert_eq. destruct states; [done|simpl; lia].
Qed.

Lemma parent_of_insert_last start_state (states : list ref) x :
  parent_of start_state (<[length states - 1 := x]> states)
  = parent_of start_state states.
Proof.
  unfold parent_of, from_end. rewrite length_insert.
  case_bool_decide as Hlen; [|done].
  apply list_lookup_total_insert_ne. lia.
Qed.

Lemma degree_inv_quantify wrap start_state h states :
  states ≠ [] →
  degree_inv start_state h states →
  degree_inv start_state (quantify wrap start_state h states).1
                         (quantify wrap start_state h states).2.
Proof.
  intros Hne (Hstart & Hstates & Hdeg & Hlast & Hparent).
  specialize (Hparent Hne).
  unfold quantify. simpl. fold (parent_of start_state states).
  pose proof (parent_of_elem _ _ _ Hstart Hstates) as Hp.
  set (P := parent_of start_state states) in *.
  set (prev := from_end states 1) in *.
  set (q := wrap (cls (h !!! prev))).
  assert (∀ j, next_states
                 (append_next
                    (append_next (remove_next (h ++ [Object q []]) P prev)
                       P (length h))
                    (length h) (length h) !!! j)
               = if bool_decide (j = length h) then [length h]
                 else if bool_decide (j = P)
                 then filter (λ s, s ≠ prev) (next_states (h !!! P))
                      ++ [length h]
                 else next_states (h !!! j)) as Hnext.
  { intros j. rewrite !next_states_append_next, next_states_remove_next.
    change (h ++ [Object q []]) with (new h q).1.
    rewrite lookup_total_new, !length_append_next, length_remove_next,
      length_new.
    destruct (decide (j = length h)) as [->|Hq].
    - rewrite (bool_decide_eq_true_2 (length h = length h ∧ _))
        by (split; [done|lia]).
      rewrite !(bool_decide_eq_false_2 (P = length h ∧ _))
        by (intros [? _]; lia).
      by rewrite !(bool_decide_eq_true_2 (length h = length h)) by done.
    - rewrite (bool_decide_eq_false_2 (length h = j ∧ _))
        by (intros [? _]; done).
      rewrite (bool_decide_eq_false_2 (j = length h)) by done.
      destruct (decide (j = P)) as [->|Hj].
      + rewrite !(bool_decide_eq_true_2 (P = P ∧ _)) by (split; [done|lia]).
        by rewrite (bool_decide_eq_true_2 (P = P)) by done.
      + rewrite !(bool_decide_eq_false_2 (P = j ∧ _))
          by (intros [? _]; done).
        by rewrite (bool_decide_eq_false_2 (j = P)) by done. }
  unfold degree_inv, out_degree.
  rewrite !length_append_next, length_remove_next, length_app. simpl.
  split_and!.
  - lia.
  - apply Forall_insert; [|lia].
    eapply Forall_impl; [done|]. simpl. lia.
  - intros r. rewrite Hnext. repeat case_bool_decide.
    + simpl. lia.
    + rewrite length_app. simpl. lia.
    + apply Hdeg.
  - unfold last_of. rewrite bool_decide_eq_true_2.
    + rewrite from_end_insert_last by done. rewrite Hnext.
      rewrite bool_decide_eq_true_2 by done. simpl. lia.
    + intros Hnil. apply (f_equal length) in Hnil.
      rewrite length_insert in Hnil. by destruct states.
  - intros _. rewrite from_end_insert_last by done.
    rewrite parent_of_insert_last. fold P. rewrite Hnext.
    rewrite bool_decide_eq_false_2 by lia.
    rewrite bool_decide_eq_true_2 by done.
    rewrite filter_app. rewrite (filter_cons_False _ (length h)) by tauto.
    rewrite filter_nil, app_nil_r.
    etrans; [apply length_filter|]. apply Hparent.
Qed.

Lemma degree_inv_step regex_expr start_state a b :
  compile_step regex_expr start_state a b →
  degree_inv start_state a.1.1 a.1.2 → degree_inv start_state b.1.1 b.1.2.
Proof.
  destruct 1; simpl; intros Hinv.
  - by apply degree_inv_quantify.
  - by apply degree_inv_quantify.
  - by apply degree_inv_link.
  - by apply degree_inv_link.
Qed.

Lemma degree_inv_steps regex_expr start_state a b :
  rtc (compile_step regex_expr start_state) a b →
  degree_inv start_state a.1.1 a.1.2 → degree_inv start_state b.1.1 b.1.2.
Proof.
  induction 1 as [|a b c Hstep _ IH]; [done|].
  intros Ha. by eapply IH, degree_inv_step.
Qed.

Lemma degree_finish start_state h states r :
  degree_inv start_state h states →
  out_degree (finish start_state h states) r ≤ 2.
Proof.
  intros (Hstart & Hstates & Hdeg & Hlast & _).
  pose proof (last_of_elem _ _ _ Hstart Hstates) as Hl.
  assert (finish start_state h states
          = append_next (new h TerminationState).1
              (last_of start_state states) (length h)) as ->.
  { unfold finish, last_of. simpl. by case_bool_decide. }
  unfold out_degree in *.
  rewrite next_states_append_next, lookup_total_new, length_new.
  repeat case_bool_decide; simpl; rewrite ?length_app; simpl;
    try lia; try apply Hdeg.
  destruct_and!. subst r. lia.
Qed.

Lemma edges_degree (h : list object) d :
  (∀ r, out_degree h r ≤ d) → edges h ≤ d * length h.
Proof.
  intros Hdeg. rewrite <- unvisited_edges_empty. unfold unvisited_edges.
  assert (∀ l : list nat,
            sum_list_with
              (λ r, if bool_decide (r ∈ (∅ : gset nat)) then 0
                    else out_degree h r) l
            ≤ d * length l) as Hsum.
  { induction l as [|r l IH]; simpl in *; [lia|].
    specialize (Hdeg r). lia. }
  specialize (Hsum (seq 0 (length h))). by rewrite length_seq in Hsum.
Qed.

Lemma compiled_edges (regex_expr : string) (self : RegexFSM) :
  RegexFSM_init regex_expr = Return self →
  edges (objects self) ≤ 2 * length (objects self).
Proof.
  intros Hself.
  destruct (RegexFSM_init_cases regex_expr)
    as [[_ [msg Hmsg]]|[_ (h & states & Hsteps & Hret)]]; [congruence|].
  assert (self = {| objects := finish 0 h states; start_state := 0 |})
    as -> by congruence.
  cbn [objects]. apply edges_degree. intros r. apply degree_finish.
  apply (degree_inv_steps _ _ _ _ Hsteps). simpl.
  unfold degree_inv, last_of, out_degree. simpl.
  split_and!; [lia|done| |lia|done].
  intros [|j]; [simpl; lia|].
  rewrite lookup_total_out_of_range by (simpl; lia). simpl. lia.
Qed.

(** * The claims *)

(** The examples of the specification for [a.c], [[a-z0-9]+] and
    [[^0-9]]. *)
Example spec_examples :
  RegexFSM_init "a.c" = Return a_dot_c_fsm
  ∧ (check_string id a_dot_c_fsm <$> [Some "abc"; Some "ac"; Some "axc"])
    = [Return true; Return false; Return true]
  ∧ (matches id "[a-z0-9]+" <$> [Some "abc123"; Some "ABC"; Some ""])
    = [Return true; Return false; Return false]
  ∧ (matches id "[^0-9]" <$> [Some "5"; Some "x"; Some "xy"])
    = [Return false; Return true; Return false].
Proof. split_and!; reflexivity. Qed.

(** C1: for a pattern of literal characters and [.] only, the compiled
    machine accepts an input iff the input has the length of the pattern
    and, at every position, the pattern character is [.] or is the input
    character.  Such a pattern compiles unless it is empty (there is no
    machine for the empty pattern). *)
Theorem plain_pattern_matches set_order (regex_expr : string) :
  valid_order set_order →
  plain_pattern regex_expr →
  (regex_expr ≠ "" → ∃ self, RegexFSM_init regex_expr = Return self)
  ∧ ∀ self (input_str : string),
      RegexFSM_init regex_expr = Return self →
      ∃ b, check_string set_order self (Some input_str) = Return b
           ∧ (b = true
              ↔ literal_dot_match
                  (String.list_ascii_of_string regex_expr)
                  (String.list_ascii_of_string input_str)).
Proof.
  intros Horder Hplain. split.
  { intros Hne.
    destruct (RegexFSM_init_cases regex_expr)
      as [[Hrej _]|[_ (h & states & _ & Hret)]]; [|by eexists].
    by destruct (plain_pattern_not_rejected regex_expr). }
  intros self input_str Hret.
  rewrite (RegexFSM_init_plain regex_expr _ Hplain Hret). clear Hret self.
  set (text := String.list_ascii_of_string regex_expr).
  set (h := chain 0 (StartState :: (literal_state <$> text)
                     ++ [TerminationState])).
  exists (plain_matches text (String.list_ascii_of_string input_str)).
  split; [|apply plain_matches_literal_dot_match].
  unfold check_string, check_string_fuel, fuel_bound.
  cbn [objects start_state].
  rewrite (add_epsilon_transitions_no_star set_order Horder h
             (plain_no_star text)) by (rewrite size_singleton; lia).
  cbn [mbind outcome_bind].
  rewrite <- (drop_0 text).
  rewrite <- (plain_run set_order Horder text (2 * edges h + 2)
                (String.list_ascii_of_string input_str) 0) by (done || lia).
  case_bool_decide as Hempty; [by subst input_str|done].
Qed.

Lemma plain_pattern_matches_witness :
  valid_order id
  ∧ plain_pattern "a.c"
  ∧ ("a.c" ≠ "" → ∃ self, RegexFSM_init "a.c" = Return self)
  ∧ ∀ self (input_str : string),
      RegexFSM_init "a.c" = Return self →
      ∃ b, check_string id self (Some input_str) = Return b
           ∧ (b = true
              ↔ literal_dot_match
                  (String.list_ascii_of_string "a.c")
                  (String.list_ascii_of_string input_str)).
Proof.
  assert (plain_pattern "a.c") as Hplain.
  { unfold plain_pattern, plain_char. simpl.
    repeat (apply Forall_cons; split; [by split_and!|]).
    apply Forall_nil_2. }
  split; [exact valid_order_id|]. split; [exact Hplain|].
  exact (plain_pattern_matches id "a.c" valid_order_id Hplain).
Defined.

(** C2: the machine of [a*] accepts the empty string, [a] and [aaaa] and
    rejects [b]; the machine of [a+] rejects the empty string and accepts
    [a] and [aaa]. *)
Theorem star_and_plus_examples set_order :
  valid_order set_order →
  RegexFSM_init "a*" = Return a_star_fsm
  ∧ check_string set_order a_star_fsm (Some "") = Return true
  ∧ check_string set_order a_star_fsm (Some "a") = Return true
  ∧ check_string set_order a_star_fsm (Some "aaaa") = Return true
  ∧ check_string set_order a_star_fsm (Some "b") = Return false
  ∧ RegexFSM_init "a+" = Return a_plus_fsm
  ∧ check_string set_order a_plus_fsm (Some "") = Return false
  ∧ check_string set_order a_plus_fsm (Some "a") = Return true
  ∧ check_string set_order a_plus_fsm (Some "aaa") = Return true.
Proof.
  intros Horder.
  split_and!;
    try rewrite (check_string_agree set_order id _ _ Horder valid_order_id);
    reflexivity.
Qed.

Lemma star_and_plus_examples_witness :
  valid_order id
  ∧ RegexFSM_init "a*" = Return a_star_fsm
  ∧ check_string id a_star_fsm (Some "") = Return true
  ∧ check_string id a_star_fsm (Some "a") = Return true
  ∧ check_string id a_star_fsm (Some "aaaa") = Return true
  ∧ check_string id a_star_fsm (Some "b") = Return false
  ∧ RegexFSM_init "a+" = Return a_plus_fsm
  ∧ check_string id a_plus_fsm (Some "") = Return false
  ∧ check_string id a_plus_fsm (Some "a") = Return true
  ∧ check_string id a_plus_fsm (Some "aaa") = Return true.
Proof.
  split; [exact valid_order_id|].
  exact (star_and_plus_examples id valid_order_id).
Defined.

(** C3: compilation fails with a [ValueError] for the empty pattern, for a
    pattern whose first character is [*] or [+], and for a pattern that
    has a [[] with no []] after it; the message is one of the four of the
    source. *)
Theorem invalid_pattern_raises (regex_expr : string) :
  rejected_pattern regex_expr →
  ∃ msg,
    RegexFSM_init regex_expr = Raise (ValueError msg)
    ∧ msg ∈ ["Empty regex pattern";
             "'*' cannot be used without a preceding character";
             "'+' cannot be used without a preceding character";
             "Unclosed character class"].
Proof.
  intros Hrej. unfold RegexFSM_init.
  destruct (RegexFSM_init_fuel_cases (S (String.length regex_expr))
              regex_expr ltac:(lia))
    as [[_ ->]|[[_ ->]|[[_ ->]|[[_ ->]|[? _]]]]]; [..|done];
    eexists; (split; [done|]).
  - apply list_elem_of_here.
  - apply list_elem_of_further, list_elem_of_here.
  - do 2 apply list_elem_of_further. apply list_elem_of_here.
  - do 3 apply list_elem_of_further. apply list_elem_of_here.
Qed.

Lemma invalid_pattern_raises_witness :
  rejected_pattern "[abc"
  ∧ ∃ msg,
      RegexFSM_init "[abc" = Raise (ValueError msg)
      ∧ msg ∈ ["Empty regex pattern";
               "'*' cannot be used without a preceding character";
               "'+' cannot be used without a preceding character";
               "Unclosed character class"].
Proof.
  assert (rejected_pattern "[abc") as Hrej.
  { right. right. right. exists 0. split; [reflexivity|].
    intros [|[|[|[|m]]]] Hm; simpl; (lia || discriminate). }
  split; [exact Hrej|]. exact (invalid_pattern_raises "[abc" Hrej).
Defined.

(** C4: [CharacterClassState.__init__] parses a bracket body as the
    specification says.  A leading [^] sets [negated] and is consumed
    ([class_of_body]); the rest is scanned left to right, a character
    followed by [-] and a third character giving a range and three
    characters consumed, any other character giving a single and one
    character consumed ([parse_class_body]); a [-] with no character after
    it is a single, as is the character before it; and the state accepts a
    character iff (it lies in some range or is a single) XOR [negated]. *)
Theorem class_parsing_follows_spec (class_spec : list ascii) :
  CharacterClassState_init class_spec = Return (class_of_body class_spec)
  ∧ (∀ c e rest,
       parse_class_body (c :: "-"%char :: e :: rest)
       = ((c, e) :: (parse_class_body rest).1, (parse_class_body rest).2))
  ∧ (∀ c rest,
       (∀ e rest', rest ≠ "-"%char :: e :: rest') →
       parse_class_body (c :: rest)
       = ((parse_class_body rest).1, {[c]} ∪ (parse_class_body rest).2))
  ∧ (∀ c, parse_class_body [c; "-"%char] = ([], {[c; "-"%char]}))
  ∧ (∀ char_ranges (individual_chars : gset ascii) negated char,
       check_self
         (CharacterClassState char_ranges individual_chars negated) char
       = xorb (bool_decide (in_class char_ranges individual_chars char))
              negated).
Proof.
  split_and!.
  - apply CharacterClassState_init_class_of_body.
  - apply parse_class_body_range.
  - apply parse_class_body_single.
  - intros c. simpl. f_equal; set_solver.
  - apply check_self_in_class.
Qed.

(** C5, as the code has it: every [(low, high)] entry of a compiled
    class is a pair written as [low-high] in the pattern, endpoints in the
    order written. *)
Theorem compiled_ranges_are_written (regex_expr : string) (self : RegexFSM)
    (o : object) (low high : ascii) :
  RegexFSM_init regex_expr = Return self →
  o ∈ objects self →
  (low, high) ∈ ranges_of (cls o) →
  written_range (String.list_ascii_of_string regex_expr) low high.
Proof.
  intros Hself Ho Hin.
  destruct (RegexFSM_init_cases regex_expr)
    as [[_ [msg Hmsg]]|[_ (h & states & Hsteps & Hret)]]; [congruence|].
  assert (self = {| objects := finish 0 h states; start_state := 0 |})
    as -> by congruence.
  simpl in Ho.
  assert (ranges_written (String.list_ascii_of_string regex_expr)
            (finish 0 h states)) as Hwritten.
  { apply ranges_written_finish.
    apply (ranges_written_steps _ _ _ _ Hsteps). simpl.
    intros o' low' high' Ho' Hin'.
    apply list_elem_of_singleton in Ho' as ->.
    by apply elem_of_nil in Hin'. }
  by eapply Hwritten.
Qed.

Lemma compiled_ranges_are_written_witness :
  RegexFSM_init "[z-a]" = Return z_a_fsm
  ∧ z_a_class ∈ objects z_a_fsm
  ∧ ("z"%char, "a"%char) ∈ ranges_of (cls z_a_class)
  ∧ written_range (String.list_ascii_of_string "[z-a]") "z" "a".
Proof.
  assert (z_a_class ∈ objects z_a_fsm) as Ho.
  { apply list_elem_of_further, list_elem_of_here. }
  assert (("z"%char, "a"%char) ∈ ranges_of (cls z_a_class)) as Hin.
  { apply list_elem_of_here. }
  split; [reflexivity|]. split; [exact Ho|]. split; [exact Hin|].
  exact (compiled_ranges_are_written "[z-a]" z_a_fsm z_a_class "z" "a"
           eq_refl Ho Hin).
Defined.

(** C5 as stated fails: nothing orders the endpoints, and [[z-a]]
    compiles to a class whose range entry is [(z, a)]. *)
Lemma compiled_ranges_not_ordered :
  ¬ (∀ (regex_expr : string) (self : RegexFSM) (o : object)
       (low high : ascii),
       RegexFSM_init regex_expr = Return self →
       o ∈ objects self →
       (low, high) ∈ ranges_of (cls o) →
       ord low ≤ ord high).
Proof.
  intros Hordered.
  assert (ord "z" ≤ ord "a") as Hle.
  { apply (Hordered "[z-a]" z_a_fsm z_a_class); [reflexivity| |].
    - apply list_elem_of_further, list_elem_of_here.
    - apply list_elem_of_here. }
  vm_compute in Hle. lia.
Qed.

(** C6: whatever the compiled pattern, [check_string(None)] raises
    [ValueError], with any fuel; the empty string is an input like any
    other: the call returns, and returns [True] exactly when a termination
    object follows some object reached from the start without input. *)
Theorem check_string_requires_input set_order (regex_expr : string)
    (self : RegexFSM) :
  valid_order set_order →
  RegexFSM_init regex_expr = Return self →
  (∀ fuel, check_string_fuel set_order fuel self None
           = Raise (ValueError "Input string is required"))
  ∧ check_string set_order self None
    = Raise (ValueError "Input string is required")
  ∧ ∃ b, check_string set_order self (Some "") = Return b
         ∧ (b = true
            ↔ ∃ x, eps_reach (objects self) {[start_state self]} x
                   ∧ has_termination_successor (objects self) x).
Proof.
  intros Horder _. split_and!; [done..|].
  unfold check_string, check_string_fuel.
  destruct (add_epsilon_transitions_reach set_order Horder (objects self)
              (fuel_bound self) {[start_state self]})
    as (res & -> & Hres).
  { unfold fuel_bound. rewrite size_singleton. lia. }
  cbn [mbind outcome_bind]. rewrite bool_decide_eq_true_2 by done.
  destruct (can_terminate_reach set_order Horder (objects self)
              (fuel_bound self) res) as (b & -> & Hb).
  { assert (res ⊆ {[start_state self]} ∪ targets (objects self)) as Hsub.
    { by intros x Hx%Hres%eps_reach_targets. }
    pose proof (size_start_targets _ _ _ Hsub). unfold fuel_bound. lia. }
  exists b. split; [done|]. rewrite Hb.
  by setoid_rewrite (eps_reach_idempotent (objects self)
                       {[start_state self]} res _ Hres).
Qed.

Lemma check_string_requires_input_witness :
  valid_order id
  ∧ RegexFSM_init "a*" = Return a_star_fsm
  ∧ (∀ fuel, check_string_fuel id fuel a_star_fsm None
             = Raise (ValueError "Input string is required"))
  ∧ check_string id a_star_fsm None
    = Raise (ValueError "Input string is required")
  ∧ ∃ b, check_string id a_star_fsm (Some "") = Return b
         ∧ (b = true
            ↔ ∃ x, eps_reach (objects a_star_fsm)
                     {[start_state a_star_fsm]} x
                   ∧ has_termination_successor (objects a_star_fsm) x).
Proof.
  split; [exact valid_order_id|]. split; [reflexivity|].
  exact (check_string_requires_input id "a*" a_star_fsm valid_order_id
           eq_refl).
Defined.

(** C7: [check_string] terminates on every compiled pattern and every
    input string.  Each search pops what it pushed, and pushes the
    successors of an object only when it visits that object for the first
    time, so neither runs out of fuel once the fuel exceeds the size of its
    starting set plus the number of edges, self-loops included.  A compiled
    object has at most two successors, so [fuel_bound] is at most four
    times the number of objects plus two; with that much fuel or more
    [check_string] returns, and returns the same boolean. *)
Theorem check_string_terminates set_order (regex_expr : string)
    (self : RegexFSM) (input_str : string) :
  valid_order set_order →
  RegexFSM_init regex_expr = Return self →
  fuel_bound self ≤ 4 * length (objects self) + 2
  ∧ (∀ fuel (states : gset ref),
       size states + edges (objects self) < fuel →
       (∃ res, _add_epsilon_transitions set_order fuel (objects self) states
               = Return res)
       ∧ (∃ b, _can_terminate_without_input set_order fuel (objects self)
                 states = Return b))
  ∧ ∃ b, check_string set_order self (Some input_str) = Return b
         ∧ ∀ fuel, fuel_bound self ≤ fuel →
                   check_string_fuel set_order fuel self (Some input_str)
                   = Return b.
Proof.
  intros Horder Hself. split_and!.
  - pose proof (compiled_edges regex_expr self Hself). unfold fuel_bound. lia.
  - intros fuel states Hfuel. split.
    + destruct (add_epsilon_transitions_reach set_order Horder
                  (objects self) fuel states Hfuel) as (res & ? & _).
      by exists res.
    + destruct (can_terminate_reach set_order Horder (objects self) fuel
                  states Hfuel) as (b & ? & _).
      by exists b.
  - destruct (check_string_fuel_agree set_order set_order Horder Horder self
                (fuel_bound self) (fuel_bound self) (Some input_str))
      as [_ Hret]; [done..|].
    destruct (Hret input_str eq_refl) as [b Hb].
    exists b. split; [done|]. intros fuel Hfuel. rewrite <- Hb.
    by apply (check_string_fuel_agree set_order set_order Horder Horder).
Qed.

Lemma check_string_terminates_witness :
  valid_order id
  ∧ RegexFSM_init "a*" = Return a_star_fsm
  ∧ fuel_bound a_star_fsm ≤ 4 * length (objects a_star_fsm) + 2
  ∧ (∀ fuel (states : gset ref),
       size states + edges (objects a_star_fsm) < fuel →
       (∃ res, _add_epsilon_transitions id fuel (objects a_star_fsm) states
               = Return res)
       ∧ (∃ b, _can_terminate_without_input id fuel (objects a_star_fsm)
                 states = Return b))
  ∧ ∃ b, check_string id a_star_fsm (Some "aaaa") = Return b
         ∧ ∀ fuel, fuel_bound a_star_fsm ≤ fuel →
                   check_string_fuel id fuel a_star_fsm (Some "aaaa")
                   = Return b.
Proof.
  split; [exact valid_order_id|]. split; [reflexivity|].
  exact (check_string_terminates id "a*" a_star_fsm "aaaa" valid_order_id
           eq_refl).
Defined.

(** C8: two machines compiled from the same pattern accept the same
    strings: on every input both calls of [check_string] return, and return
    the same boolean, whatever order each of them iterates its sets in. *)
Theorem compile_twice_same_answers order1 order2 (regex_expr : string)
    (self1 self2 : RegexFSM) (input_str : string) :
  valid_order order1 → valid_order order2 →
  RegexFSM_init regex_expr = Return self1 →
  RegexFSM_init regex_expr = Return self2 →
  ∃ b, check_string order1 self1 (Some input_str) = Return b
       ∧ check_string order2 self2 (Some input_str) = Return b.
Proof.
  intros H1 H2 Hself1 Hself2.
  assert (self2 = self1) as -> by congruence.
  destruct (check_string_fuel_agree order1 order2 H1 H2 self1
              (fuel_bound self1) (fuel_bound self1) (Some input_str))
    as [Heq Hret]; [done..|].
  destruct (Hret input_str eq_refl) as [b Hb].
  exists b. unfold check_string. by rewrite <- Heq.
Qed.

Lemma compile_twice_same_answers_witness :
  valid_order id ∧ valid_order reverse
  ∧ RegexFSM_init "a*" = Return a_star_fsm
  ∧ RegexFSM_init "a*" = Return a_star_fsm
  ∧ ∃ b, check_string id a_star_fsm (Some "aab") = Return b
         ∧ check_string reverse a_star_fsm (Some "aab") = Return b.
Proof.
  split; [exact valid_order_id|]. split; [exact valid_order_reverse|].
  split; [reflexivity|]. split; [reflexivity|].
  exact (compile_twice_same_answers id reverse "a*" a_star_fsm a_star_fsm
           "aab" valid_order_id valid_order_reverse eq_refl eq_refl).
Defined.

(** C9: compilation raises in the three listed cases only; every other
    pattern compiles.  A quantifier after a quantified construct wraps the
    repeat object in another one ([a**], [a+*]), and a []] outside a class
    is a literal. *)
Theorem compile_raises_only_when_rejected :
  (∀ regex_expr,
     ((∃ e, RegexFSM_init regex_expr = Raise e)
      ↔ rejected_pattern regex_expr)
     ∧ ((∃ self, RegexFSM_init regex_expr = Return self)
        ↔ ¬ rejected_pattern regex_expr))
  ∧ RegexFSM_init "a**"
    = Return {| objects :=
                  [Object StartState [3];
                   Object (AsciiState "a") [];
                   Object (StarState (AsciiState "a")) [2];
                   Object (StarState (StarState (AsciiState "a"))) [3; 4];
                   Object TerminationState []];
                start_state := 0 |}
  ∧ RegexFSM_init "a+*"
    = Return {| objects :=
                  [Object StartState [3];
                   Object (AsciiState "a") [];
                   Object (PlusState (AsciiState "a")) [2];
                   Object (StarState (PlusState (AsciiState "a"))) [3; 4];
                   Object TerminationState []];
                start_state := 0 |}
  ∧ RegexFSM_init "a]"
    = Return {| objects :=
                  [Object StartState [1];
                   Object (AsciiState "a") [2];
                   Object (AsciiState "]") [3];
                   Object TerminationState []];
                start_state := 0 |}.
Proof.
  split_and!; [|reflexivity..].
  intros regex_expr.
  destruct (RegexFSM_init_cases regex_expr)
    as [[Hrej [msg Hmsg]]|[Hok (h & states & _ & Hret)]].
  - rewrite Hmsg. split.
    + split; [done|]. intros _. by eexists.
    + split; [by intros [? ?]|done].
  - rewrite Hret. split.
    + split; [by intros [? ?]|done].
    + split; [done|]. intros _. by eexists.
Qed.

(** C10: an empty bracket body is not an error: [[]] compiles to a class
    that accepts no character and [[^]] to one that accepts every
    character. *)
Theorem empty_bracket_body_compiles :
  RegexFSM_init "[]"
  = Return {| objects :=
                [Object StartState [1];
                 Object (CharacterClassState [] ∅ false) [2];
                 Object TerminationState []];
              start_state := 0 |}
  ∧ (∀ char, check_self (CharacterClassState [] ∅ false) char = false)
  ∧ RegexFSM_init "[^]"
    = Return {| objects :=
                  [Object StartState [1];
                   Object (CharacterClassState [] ∅ true) [2];
                   Object TerminationState []];
                start_state := 0 |}
  ∧ (∀ char, check_self (CharacterClassState [] ∅ true) char = true).
Proof.
  split_and!; [reflexivity| |reflexivity| ].
  - intros char. by rewrite check_self_class.
  - intros char. by rewrite check_self_class.
Qed.

(** * Further properties of the code *)

(** ** State.check_next *)

(** X1: [check_next] returns the first successor, in the order of
    [next_states], that accepts the character, and raises
    [NotImplementedError] exactly when no successor accepts it. *)
Theorem check_next_first_accepting (h : list object) (self : ref)
    (next_char : ascii) :
  (∀ state, check_next h self next_char = inl state
     ↔ ∃ before after,
         next_states (h !!! self) = before ++ state :: after
         ∧ check_self (cls (h !!! state)) next_char
         ∧ Forall (λ s, check_self (cls (h !!! s)) next_char = false) before)
  ∧ (∀ e, check_next h self next_char = inr e
       ↔ e = NotImplementedError "rejected string"
         ∧ Forall (λ s, check_self (cls (h !!! s)) next_char = false)
                  (next_states (h !!! self))).
Proof.
  unfold check_next.
  induction (next_states (h !!! self)) as [|s ns [IHl IHr]]; simpl.
  - split.
    + intros state. split; [done|]. intros (before & after & Heq & _).
      by destruct before.
    + intros e. split; [by intros [= <-]|by intros [-> _]].
  - destruct (check_self (cls (h !!! s)) next_char) eqn:Hs.
    + split.
      * intros state. split.
        -- intros [= <-]. exists [], ns. by rewrite Hs.
        -- intros ([|s' before] & after & Heq & _ & Hbefore).
           ++ by injection Heq as ->.
           ++ injection Heq as -> _. apply Forall_cons in Hbefore as [Hf _].
              congruence.
      * intros e. split; [done|]. intros [_ [Hf _]%Forall_cons]. congruence.
    + split.
      * intros state. rewrite IHl. split.
        -- intros (before & after & -> & Hacc & Hbefore).
           exists (s :: before), after. split_and!; [done..|].
           by apply Forall_cons.
        -- intros ([|s' before] & after & Heq & Hacc & Hbefore).
           ++ injection Heq as ->. by rewrite Hs in Hacc.
           ++ injection Heq as -> ->. apply Forall_cons in Hbefore as [_ ?].
              by exists before, after.
      * intros e. rewrite IHr, Forall_cons. naive_solver.
Qed.

(** X2: [check_next] and the transition of [check_string] agree: from a
    single active object, [check_next] returns one of the objects the
    transition makes active, and raises exactly when the transition leaves
    no object active (where [check_string] returns [False]). *)
Theorem check_next_agrees_with_step set_order (h : list object) (self : ref)
    (char : ascii) :
  valid_order set_order →
  (∀ state, check_next h self char = inl state →
            state ∈ step set_order h {[self]} char)
  ∧ ((∃ e, check_next h self char = inr e)
     ↔ step set_order h {[self]} char = ∅).
Proof.
  intros Horder.
  destruct (check_next_first_accepting h self char) as [Hl Hr]. split.
  - intros state (before & after & Heq & Hacc & _)%Hl.
    apply (elem_of_step set_order Horder). exists self.
    split_and!; [set_solver| |done].
    rewrite Heq. set_solver.
  - split.
    + intros [e [_ Hnone]%Hr]. apply set_eq. intros y. split; [|set_solver].
      intros (x & Hx%elem_of_singleton & Hy & Hacc)
        %(elem_of_step set_order Horder).
      subst x. rewrite Forall_forall in Hnone.
      rewrite (Hnone y Hy) in Hacc. done.
    + intros Hempty. exists (NotImplementedError "rejected string").
      apply Hr. split; [done|]. apply Forall_forall. intros y Hy.
      destruct (check_self (cls (h !!! y)) char) eqn:Hacc; [|done].
      assert (y ∈ step set_order h {[self]} char) as Hin.
      { apply (elem_of_step set_order Horder). exists self.
        split_and!; [set_solver|done|by rewrite Hacc]. }
      rewrite Hempty in Hin. set_solver.
Qed.

Lemma check_next_agrees_with_step_witness :
  valid_order id
  ∧ (∀ state, check_next (objects a_star_fsm) 2 "a" = inl state →
              state ∈ step id (objects a_star_fsm) {[2]} "a")
  ∧ ((∃ e, check_next (objects a_star_fsm) 2 "a" = inr e)
     ↔ step id (objects a_star_fsm) {[2]} "a" = ∅).
Proof.
  split; [exact valid_order_id|].
  exact (check_next_agrees_with_step id (objects a_star_fsm) 2 "a"
           valid_order_id).
Defined.

(** ** The two searches *)

(** X3: [_add_epsilon_transitions] keeps the set it is given, adds
    [StarState] objects only, returns a set closed under the [StarState]
    successors of its members, and applied to its own result returns it
    unchanged. *)
Theorem add_epsilon_transitions_closure set_order (h : list object)
    (states : gset ref) (fuel : nat) :
  valid_order set_order →
  size states + edges h < fuel →
  ∃ res,
    _add_epsilon_transitions set_order fuel h states = Return res
    ∧ states ⊆ res
    ∧ (∀ x, x ∈ res → x ∉ states → is_StarState (cls (h !!! x)))
    ∧ (∀ x y, x ∈ res → y ∈ next_states (h !!! x) →
              is_StarState (cls (h !!! y)) → y ∈ res)
    ∧ (∀ fuel', size res + edges h < fuel' →
                _add_epsilon_transitions set_order fuel' h res = Return res).
Proof.
  intros Horder Hfuel.
  destruct (add_epsilon_transitions_reach set_order Horder h fuel states
              Hfuel) as (res & Hres & Hreach).
  exists res. split_and!; [done| | | |].
  - intros x Hx. apply Hreach. by constructor.
  - intros x [x' Hx'|x' y _ _ Hstar]%Hreach Hout; done.
  - intros x y Hx%Hreach Hy Hstar. apply Hreach. by eapply eps_reach_star.
  - intros fuel' Hfuel'.
    destruct (add_epsilon_transitions_reach set_order Horder h fuel' res
                Hfuel') as (res' & -> & Hreach').
    f_equal. apply set_eq. intros x.
    by rewrite Hreach', (eps_reach_idempotent h states res x Hreach), Hreach.
Qed.

Lemma add_epsilon_transitions_closure_witness :
  valid_order id
  ∧ size ({[0]} : gset nat) + edges (objects a_star_fsm) < 5
  ∧ ∃ res,
      _add_epsilon_transitions id 5 (objects a_star_fsm) {[0]} = Return res
      ∧ {[0]} ⊆ res
      ∧ (∀ x, x ∈ res → x ∉ ({[0]} : gset nat) →
              is_StarState (cls (objects a_star_fsm !!! x)))
      ∧ (∀ x y, x ∈ res → y ∈ next_states (objects a_star_fsm !!! x) →
                is_StarState (cls (objects a_star_fsm !!! y)) → y ∈ res)
      ∧ (∀ fuel', size res + edges (objects a_star_fsm) < fuel' →
                  _add_epsilon_transitions id fuel' (objects a_star_fsm) res
                  = Return res).
Proof.
  assert (size ({[0]} : gset nat) + edges (objects a_star_fsm) < 5) as Hfuel.
  { vm_compute. lia. }
  split; [exact valid_order_id|]. split; [exact Hfuel|].
  exact (add_epsilon_transitions_closure id (objects a_star_fsm) {[0]} 5
           valid_order_id Hfuel).
Defined.

Lemma foldl_self_loop_step_in_res state visited ns (res : gset ref)
    worklist :
  state ∈ res →
  foldl (self_loop_step state visited) (res, worklist) ns = (res, worklist).
Proof.
  intros Hin. induction ns as [|y ns IH]; [done|]. simpl.
  destruct (decide (y = state)) as [->|Hne].
  - rewrite (bool_decide_eq_false_2 (state ∉ res)) by tauto.
    by rewrite andb_false_r.
  - by rewrite (bool_decide_eq_false_2 (y = state)) by done.
Qed.

Lemma epsilon_loop_self_loop_dead (h : list object) fuel (res : gset ref)
    worklist visited :
  (∀ x, x ∈ worklist → x ∈ res) →
  epsilon_loop fuel h res worklist visited
  = epsilon_loop_without_self_loop fuel h res worklist visited.
Proof.
  revert res worklist visited.
  induction fuel as [|fuel IH]; intros res worklist visited Hwl; [done|].
  destruct worklist as [|state worklist]; [done|]. simpl.
  case_bool_decide as Hvis.
  - apply IH. intros x Hx. apply Hwl. by apply elem_of_cons; right.
  - assert (state ∈ res) as Hstate by (apply Hwl; by apply elem_of_cons; left).
    assert ((if is_StarState (cls (h !!! state))
             then foldl (self_loop_step state ({[state]} ∪ visited))
                    (res, worklist) (next_states (h !!! state))
             else (res, worklist)) = (res, worklist)) as ->.
    { destruct (is_StarState _); [|done].
      by apply foldl_self_loop_step_in_res. }
    rewrite (foldl_star_succ_step id valid_order_id). apply IH.
    intros x. rewrite elem_of_app, elem_of_union, elem_of_list_to_set.
    intros [Hx|Hx]; [right|by left]. apply Hwl. by apply elem_of_cons; right.
Qed.

(** X4: the block [if isinstance(state, StarState): ...] of
    [_add_epsilon_transitions] never adds anything: every object taken
    from the worklist is already in [res], so the search returns what the
    loop without that block returns, with any fuel. *)
Theorem add_epsilon_transitions_self_loop_dead set_order (h : list object)
    (states : gset ref) (fuel : nat) :
  valid_order set_order →
  _add_epsilon_transitions set_order fuel h states
  = epsilon_loop_without_self_loop fuel h states (iterate set_order states)
      ∅.
Proof.
  intros Horder. unfold _add_epsilon_transitions.
  apply epsilon_loop_self_loop_dead. intros x.
  by rewrite (elem_of_iterate set_order Horder).
Qed.

Lemma add_epsilon_transitions_self_loop_dead_witness :
  valid_order id
  ∧ _add_epsilon_transitions id 5 (objects a_star_fsm) {[0]}
    = epsilon_loop_without_self_loop 5 (objects a_star_fsm) {[0]}
        (iterate id {[0]}) ∅.
Proof.
  split; [exact valid_order_id|].
  exact (add_epsilon_transitions_self_loop_dead id (objects a_star_fsm)
           {[0]} 5 valid_order_id).
Defined.

(** X5: on a set that is closed under [StarState] successors, as the
    sets [check_string] passes are, [_can_terminate_without_input] returns
    [True] exactly when some member of the set has a [TerminationState]
    among its direct successors. *)
Theorem can_terminate_on_closed_set set_order (h : list object)
    (states : gset ref) (fuel : nat) :
  valid_order set_order →
  size states + edges h < fuel →
  (∀ x y, x ∈ states → y ∈ next_states (h !!! x) →
          is_StarState (cls (h !!! y)) → y ∈ states) →
  ∃ b, _can_terminate_without_input set_order fuel h states = Return b
       ∧ (b = true ↔ ∃ x, x ∈ states ∧ has_termination_successor h x).
Proof.
  intros Horder Hfuel Hclosed.
  destruct (can_terminate_reach set_order Horder h fuel states Hfuel)
    as (b & Hb & Hiff).
  exists b. split; [done|]. rewrite Hiff.
  assert (∀ x, eps_reach h states x ↔ x ∈ states) as Hreach.
  { intros x. split; [|by constructor].
    induction 1 as [x Hx|x y _ IH Hy Hstar]; [done|]. by eapply Hclosed. }
  by setoid_rewrite Hreach.
Qed.

Lemma can_terminate_on_closed_set_witness :
  valid_order id
  ∧ size ({[2]} : gset nat) + edges (objects a_star_fsm) < 5
  ∧ (∀ x y, x ∈ ({[2]} : gset nat) →
            y ∈ next_states (objects a_star_fsm !!! x) →
            is_StarState (cls (objects a_star_fsm !!! y)) →
            y ∈ ({[2]} : gset nat))
  ∧ ∃ b, _can_terminate_without_input id 5 (objects a_star_fsm) {[2]}
         = Return b
         ∧ (b = true
            ↔ ∃ x, x ∈ ({[2]} : gset nat)
                   ∧ has_termination_successor (objects a_star_fsm) x).
Proof.
  assert (size ({[2]} : gset nat) + edges (objects a_star_fsm) < 5) as Hfuel.
  { vm_compute. lia. }
  assert (∀ x y, x ∈ ({[2]} : gset nat) →
                 y ∈ next_states (objects a_star_fsm !!! x) →
                 is_StarState (cls (objects a_star_fsm !!! y)) →
                 y ∈ ({[2]} : gset nat)) as Hclosed.
  { intros x y Hx%elem_of_singleton Hy Hstar. subst x. simpl in Hy.
    apply elem_of_cons in Hy as [->|Hy]; [by apply elem_of_singleton|].
    apply list_elem_of_singleton in Hy as ->. simpl in Hstar. done. }
  split; [exact valid_order_id|]. split; [exact Hfuel|].
  split; [exact Hclosed|].
  exact (can_terminate_on_closed_set id (objects a_star_fsm) {[2]} 5
           valid_order_id Hfuel Hclosed).
Defined.

(** ** Characters no object accepts *)

Lemma check_self_lookup_total (h : list object) c y :
  Forall (λ o, check_self (cls o) c = false) h →
  check_self (cls (h !!! y)) c = false.
Proof.
  intros Hall. destruct (decide (y < length h)) as [Hlt|Hge].
  - apply (Forall_lookup_1 _ _ y _ Hall).
    by apply list_lookup_lookup_total_lt.
  - by rewrite lookup_total_out_of_range by lia.
Qed.

Lemma run_unaccepted set_order (h : list object) fuel c input
    (current : gset ref) :
  valid_order set_order →
  Forall (λ o, check_self (cls o) c = false) h →
  2 * edges h + 2 ≤ fuel →
  c ∈ input →
  run set_order fuel h current input = Return false.
Proof.
  intros Horder Hall Hfuel. revert current.
  induction input as [|d input IH]; intros current Hin.
  { by apply elem_of_nil in Hin. }
  simpl. case_bool_decide as Hempty; [done|].
  pose proof (step_targets set_order Horder h current d) as Hstep.
  pose proof (subseteq_size _ _ Hstep) as Hsize.
  pose proof (size_targets h) as Htargets.
  destruct (add_epsilon_transitions_reach set_order Horder h fuel
              (step set_order h current d)) as (res & -> & _); [lia|].
  cbn [mbind outcome_bind].
  apply elem_of_cons in Hin as [->|Hin]; [|by apply IH].
  exfalso. apply Hempty. apply set_eq. intros y. split; [|set_solver].
  intros (x & _ & _ & Hacc)%(elem_of_step set_order Horder).
  by rewrite (check_self_lookup_total h d y Hall) in Hacc.
Qed.

(** X6: an input that contains a character that no object of the machine
    accepts is rejected: [check_string] returns [False], whatever comes
    before or after that character. *)
Theorem unaccepted_character_rejects set_order (self : RegexFSM)
    (input_str : string) (c : ascii) :
  valid_order set_order →
  Forall (λ o, check_self (cls o) c = false) (objects self) →
  c ∈ String.list_ascii_of_string input_str →
  check_string set_order self (Some input_str) = Return false.
Proof.
  intros Horder Hall Hin. unfold check_string, check_string_fuel, fuel_bound.
  destruct (add_epsilon_transitions_reach set_order Horder (objects self)
              (2 * edges (objects self) + 2) {[start_state self]})
    as (res & -> & _).
  { rewrite size_singleton. lia. }
  cbn [mbind outcome_bind].
  rewrite bool_decide_eq_false_2.
  - by apply (run_unaccepted set_order _ _ c).
  - intros ->. by apply elem_of_nil in Hin.
Qed.

Lemma unaccepted_character_rejects_witness :
  valid_order id
  ∧ Forall (λ o, check_self (cls o) "b" = false) (objects a_star_fsm)
  ∧ "b"%char ∈ String.list_ascii_of_string "aaba"
  ∧ check_string id a_star_fsm (Some "aaba") = Return false.
Proof.
  assert (Forall (λ o, check_self (cls o) "b" = false) (objects a_star_fsm))
    as Hall.
  { repeat (apply Forall_cons; split; [reflexivity|]). apply Forall_nil_2. }
  assert ("b"%char ∈ String.list_ascii_of_string "aaba") as Hin.
  { simpl. do 2 apply list_elem_of_further. apply list_elem_of_here. }
  split; [exact valid_order_id|]. split; [exact Hall|]. split; [exact Hin|].
  exact (unaccepted_character_rejects id a_star_fsm "aaba" "b"
           valid_order_id Hall Hin).
Defined.

(** ** The size and the shape of a compiled graph *)

Lemma length_quantify wrap start_state (h : list object) states :
  length (quantify wrap start_state h states).1 = S (length h).
Proof.
  unfold quantify. simpl.
  rewrite !length_append_next, length_remove_next, length_app. simpl. lia.
Qed.

Lemma length_link start_state (h : list object) states c :
  length (link start_state h states c).1 = S (length h).
Proof.
  unfold link. simpl. rewrite length_append_next, length_app. simpl. lia.
Qed.

Lemma length_finish start_state (h : list object) states :
  length (finish start_state h states) = S (length h).
Proof.
  unfold finish. simpl.
  case_bool_decide; rewrite length_append_next, length_app; simpl; lia.
Qed.

Lemma compile_step_length regex_expr start_state a b :
  compile_step regex_expr start_state a b →
  length b.1.1 = S (length a.1.1) ∧ a.2 < b.2.
Proof.
  destruct 1 as [h states i|h states i|h states i j|h states i char];
    cbn [fst snd];
    rewrite ?length_quantify, ?length_link; split; (done || lia).
Qed.

Lemma compile_steps_length regex_expr start_state a b :
  rtc (compile_step regex_expr start_state) a b →
  length b.1.1 + a.2 ≤ length a.1.1 + b.2
  ∧ length a.1.1 ≤ length b.1.1
  ∧ (a.2 < b.2 → length a.1.1 < length b.1.1).
Proof.
  induction 1 as [a|a b c Hstep _ (IH1 & IH2 & IH3)]; [split_and!; lia|].
  apply compile_step_length in Hstep as [Hlen Hidx]. split_and!; lia.
Qed.

(** X7: compilation allocates the start object, one object per iteration
    of the main loop, and the termination object: a compiled graph has at
    least three objects and at most two more than the pattern has
    characters. *)
Theorem compiled_graph_size (regex_expr : string) (self : RegexFSM) :
  RegexFSM_init regex_expr = Return self →
  3 ≤ length (objects self) ≤ String.length regex_expr + 2.
Proof.
  intros Hself.
  destruct (RegexFSM_init_cases regex_expr)
    as [[_ [msg Hmsg]]|[Hok (h & states & Hsteps & Hret)]]; [congruence|].
  assert (self = {| objects := finish 0 h states; start_state := 0 |})
    as -> by congruence.
  cbn [objects]. rewrite length_finish.
  destruct (compile_steps_length _ _ _ _ Hsteps) as (Hle & _ & Hlt).
  simpl in Hle, Hlt. rewrite length_list_ascii_of_string in Hle, Hlt.
  assert (0 < String.length regex_expr) as Hne.
  { destruct regex_expr; [|simpl; lia].
    exfalso. apply Hok. by left. }
  specialize (Hlt Hne). lia.
Qed.

Lemma compiled_graph_size_witness :
  RegexFSM_init "a*" = Return a_star_fsm
  ∧ 3 ≤ length (objects a_star_fsm) ≤ String.length "a*" + 2.
Proof.
  split; [reflexivity|].
  exact (compiled_graph_size "a*" a_star_fsm eq_refl).
Defined.

(** X8: no object of a compiled graph has more than two successors. *)
Theorem compiled_out_degree (regex_expr : string) (self : RegexFSM)
    (o : object) :
  RegexFSM_init regex_expr = Return self →
  o ∈ objects self →
  length (next_states o) ≤ 2.
Proof.
  intros Hself Ho.
  destruct (RegexFSM_init_cases regex_expr)
    as [[_ [msg Hmsg]]|[_ (h & states & Hsteps & Hret)]]; [congruence|].
  assert (self = {| objects := finish 0 h states; start_state := 0 |})
    as -> by congruence.
  cbn [objects] in Ho.
  apply list_elem_of_lookup in Ho as [i Hi].
  assert (degree_inv 0 h states) as Hinv.
  { apply (degree_inv_steps _ _ _ _ Hsteps). simpl.
    unfold degree_inv, last_of, out_degree. simpl.
    split_and!; [lia|done| |lia|done].
    intros [|j]; [simpl; lia|].
    rewrite lookup_total_out_of_range by (simpl; lia). simpl. lia. }
  pose proof (degree_finish 0 h states i Hinv) as Hdeg.
  unfold out_degree in Hdeg.
  by rewrite (list_lookup_total_correct _ _ _ Hi) in Hdeg.
Qed.

Lemma compiled_out_degree_witness :
  RegexFSM_init "a*" = Return a_star_fsm
  ∧ Object (StarState (AsciiState "a")) [2; 3] ∈ objects a_star_fsm
  ∧ length (next_states (Object (StarState (AsciiState "a")) [2; 3])) ≤ 2.
Proof.
  assert (Object (StarState (AsciiState "a")) [2; 3] ∈ objects a_star_fsm)
    as Ho.
  { do 2 apply list_elem_of_further. apply list_elem_of_here. }
  split; [reflexivity|]. split; [exact Ho|].
  exact (compiled_out_degree "a*" a_star_fsm _ eq_refl Ho).
Defined.

Lemma shape_inv_nonempty (h : list object) : shape_inv h → 0 < length h.
Proof. intros [[ns Hstart] _]. by apply lookup_lt_Some in Hstart. Qed.

Lemma shape_inv_new (h : list object) c :
  shape_inv h → c ≠ StartState → c ≠ TerminationState →
  shape_inv (h ++ [Object c []]).
Proof.
  intros Hinv Hc1 Hc2. pose proof (shape_inv_nonempty h Hinv) as Hlen.
  destruct Hinv as ([ns Hstart] & Hcls & Hnext).
  split_and!.
  - exists ns. by rewrite lookup_app_l.
  - intros i o Hi Hpos.
    apply lookup_app_Some in Hi as [Hi|[_ Hi]]; [by eapply Hcls|].
    apply list_lookup_singleton_Some in Hi as [_ <-]. done.
  - intros i o y Hi Hy. rewrite length_app. simpl.
    apply lookup_app_Some in Hi as [Hi|[_ Hi]].
    + specialize (Hnext i o y Hi Hy). lia.
    + apply list_lookup_singleton_Some in Hi as [_ <-].
      by apply elem_of_nil in Hy.
Qed.

Lemma shape_inv_alter (h : list object) r (f : object → object) :
  shape_inv h →
  (∀ o, cls (f o) = cls o) →
  (∀ o y, y ∈ next_states (f o) → y ∈ next_states o ∨ 0 < y < length h) →
  shape_inv (alter f r h).
Proof.
  intros ([ns Hstart] & Hcls & Hnext) Hf Hnew.
  assert (∀ i o, alter f r h !! i = Some o →
                 ∃ o', h !! i = Some o' ∧ cls o = cls o'
                       ∧ ∀ y, y ∈ next_states o →
                              y ∈ next_states o' ∨ 0 < y < length h)
    as Hlookup.
  { intros i o. rewrite list_lookup_alter. case_decide as Hi.
    - subst i. destruct (h !! r) as [o'|]; [|done]. intros [= <-].
      exists o'. split_and!; [done|apply Hf|apply Hnew].
    - intros Ho. exists o. split_and!; [done..|]. by left. }
  split_and!.
  - rewrite list_lookup_alter. case_decide as Hr.
    + rewrite Hr, Hstart. simpl. specialize (Hf (Object StartState ns)).
      destruct (f (Object StartState ns)) as [c ns']. simpl in Hf. subst c.
      by exists ns'.
    + by exists ns.
  - intros i o (o' & Ho' & -> & _)%Hlookup Hpos. by eapply Hcls.
  - intros i o y (o' & Ho' & _ & Hin)%Hlookup Hy. rewrite length_alter.
    destruct (Hin y Hy) as [Hy'|?]; [by eapply Hnext|done].
Qed.

Lemma shape_inv_append_next (h : list object) r x :
  shape_inv h → 0 < x < length h → shape_inv (append_next h r x).
Proof.
  intros Hinv Hx. apply shape_inv_alter; [done..|].
  intros o y [Hy|Hy]%elem_of_app; [by left|].
  apply list_elem_of_singleton in Hy as ->. by right.
Qed.

Lemma shape_inv_remove_next (h : list object) r x :
  shape_inv h → shape_inv (remove_next h r x).
Proof.
  intros Hinv. apply shape_inv_alter; [done..|].
  intros o y [_ Hy]%list_elem_of_filter. by left.
Qed.

Lemma shape_inv_link start_state (h : list object) states c :
  shape_inv h → c ≠ StartState → c ≠ TerminationState →
  shape_inv (link start_state h states c).1.
Proof.
  intros Hinv Hc1 Hc2. pose proof (shape_inv_nonempty h Hinv).
  unfold link, new. cbn [fst].
  apply shape_inv_append_next; [by apply shape_inv_new|].
  rewrite length_app. simpl. lia.
Qed.

Lemma shape_inv_quantify wrap start_state (h : list object) states :
  shape_inv h →
  (∀ c, wrap c ≠ StartState ∧ wrap c ≠ TerminationState) →
  shape_inv (quantify wrap start_state h states).1.
Proof.
  intros Hinv Hwrap. pose proof (shape_inv_nonempty h Hinv).
  unfold quantify, new. cbn [fst].
  apply shape_inv_append_next.
  - apply shape_inv_append_next.
    + apply shape_inv_remove_next, shape_inv_new; [done|apply Hwrap..].
    + rewrite length_remove_next, length_app. simpl. lia.
  - rewrite length_append_next, length_remove_next, length_app. simpl. lia.
Qed.

Lemma shape_inv_steps regex_expr start_state a b :
  rtc (compile_step regex_expr start_state) a b →
  shape_inv a.1.1 → shape_inv b.1.1.
Proof.
  induction 1 as [|a b c Hstep _ IH]; [done|].
  intros Ha. apply IH. clear IH.
  destruct Hstep as [h states i|h states i|h states i j|h states i char];
    cbn [fst snd] in *.
  - by apply shape_inv_quantify.
  - by apply shape_inv_quantify.
  - apply shape_inv_link; [done|..]; unfold class_of_body;
      by destruct (parse_class_body _).
  - apply shape_inv_link; [done|..]; unfold literal_state;
      by case_bool_decide.
Qed.

(** X9: the shape of a compiled graph.  The start object is the first
    object and the only [StartState]; the termination object is the last
    object, the only [TerminationState], and has no successor; every
    successor of every object is an allocated object other than the start
    object. *)
Theorem compiled_graph_shape (regex_expr : string) (self : RegexFSM) :
  RegexFSM_init regex_expr = Return self →
  start_state self = 0
  ∧ last (objects self) = Some (Object TerminationState [])
  ∧ (∀ i o, objects self !! i = Some o →
            (cls o = StartState ↔ i = 0)
            ∧ (cls o = TerminationState ↔ S i = length (objects self)))
  ∧ (∀ o y, o ∈ objects self → y ∈ next_states o →
            0 < y < length (objects self)).
Proof.
  intros Hself.
  destruct (RegexFSM_init_cases regex_expr)
    as [[_ [msg Hmsg]]|[_ (h & states & Hsteps & Hret)]]; [congruence|].
  assert (self = {| objects := finish 0 h states; start_state := 0 |})
    as -> by congruence.
  cbn [objects start_state].
  assert (shape_inv h) as Hshape.
  { apply (shape_inv_steps _ _ _ _ Hsteps). simpl. split_and!.
    - by exists [].
    - intros [|i] o Hi Hpos; [lia|done].
    - intros [|i] o y Hi Hy; [|done]. injection Hi as <-.
      by apply elem_of_nil in Hy. }
  assert (degree_inv 0 h states) as Hdegree.
  { apply (degree_inv_steps _ _ _ _ Hsteps). simpl.
    unfold degree_inv, last_of, out_degree. simpl.
    split_and!; [lia|done| |lia|done].
    intros [|j]; [simpl; lia|].
    rewrite lookup_total_out_of_range by (simpl; lia). simpl. lia. }
  destruct Hdegree as (Hstart & Hstates & _).
  pose proof (last_of_elem _ _ _ Hstart Hstates) as Hlast.
  assert (finish 0 h states
          = append_next (h ++ [Object TerminationState []])
              (last_of 0 states) (length h)) as Hfinish.
  { unfold finish, last_of. simpl. by case_bool_decide. }
  rewrite Hfinish. clear Hfinish.
  set (L := last_of 0 states) in *.
  destruct Hshape as ([ns Hzero] & Hcls & Hnext).
  assert (∀ i o,
            append_next (h ++ [Object TerminationState []]) L (length h) !! i
            = Some o →
            (i = length h ∧ o = Object TerminationState [])
            ∨ (∃ o', h !! i = Some o' ∧ cls o = cls o'
                     ∧ ∀ y, y ∈ next_states o →
                            y ∈ next_states o' ∨ y = length h))
    as Hlookup.
  { intros i o. unfold append_next. rewrite list_lookup_alter.
    destruct (decide (i < length h)) as [Hi|Hi].
    - intros Ho. right.
      case_decide as HL; rewrite lookup_app_l in Ho by lia.
      + subst i. destruct (h !! L) as [o'|]; [|done]. injection Ho as <-.
        exists o'. split_and!; [done..|].
        intros y [?|Hy]%elem_of_app; [by left|].
        apply list_elem_of_singleton in Hy. by right.
      + exists o. split_and!; [done..|]. by left.
    - rewrite decide_False by lia. intros Ho. left.
      apply lookup_app_Some in Ho as [Ho|[_ Ho]].
      + apply lookup_lt_Some in Ho. lia.
      + apply list_lookup_singleton_Some in Ho as [? <-]. split; [lia|done]. }
  rewrite length_append_next, length_app. simpl.
  split_and!.
  - done.
  - rewrite last_lookup, length_append_next, length_app. simpl.
    replace (pred (length h + 1)) with (length h) by lia.
    unfold append_next. rewrite list_lookup_alter_ne by lia.
    by rewrite list_lookup_middle.
  - intros i o [[-> ->]|(o' & Ho' & Heq & _)]%Hlookup.
    + simpl. split; split; try done; lia.
    + rewrite Heq. pose proof (lookup_lt_Some _ _ _ Ho') as Hi.
      destruct (decide (i = 0)) as [->|Hne].
      * rewrite Hzero in Ho'. injection Ho' as <-. simpl.
        split; split; try done; lia.
      * destruct (Hcls i o' Ho' ltac:(lia)) as [H1 H2].
        split; split; try done; lia.
  - intros o y [i Hi]%list_elem_of_lookup Hy.
    apply Hlookup in Hi as [[_ ->]|(o' & Ho' & _ & Hin)].
    + by apply elem_of_nil in Hy.
    + destruct (Hin y Hy) as [Hy' | ->].
      * specialize (Hnext i o' y Ho' Hy'). lia.
      * apply lookup_lt_Some in Hzero. lia.
Qed.

Lemma compiled_graph_shape_witness :
  RegexFSM_init "a*" = Return a_star_fsm
  ∧ start_state a_star_fsm = 0
  ∧ last (objects a_star_fsm) = Some (Object TerminationState [])
  ∧ (∀ i o, objects a_star_fsm !! i = Some o →
            (cls o = StartState ↔ i = 0)
            ∧ (cls o = TerminationState
               ↔ S i = length (objects a_star_fsm)))
  ∧ (∀ o y, o ∈ objects a_star_fsm → y ∈ next_states o →
            0 < y < length (objects a_star_fsm)).
Proof.
  split; [reflexivity|].
  exact (compiled_graph_shape "a*" a_star_fsm eq_refl).
Defined.

(** ** Character classes *)

Lemma class_of_body_plain (body : list ascii) :
  head body ≠ Some "^"%char →
  class_of_body body
  = CharacterClassState (parse_class_body body).1 (parse_class_body body).2
      false.
Proof.
  intros Hhead. unfold class_of_body.
  rewrite bool_decide_eq_false_2 by done.
  by destruct (parse_class_body body).
Qed.

Lemma class_of_body_negated (body : list ascii) :
  class_of_body ("^"%char :: body)
  = CharacterClassState (parse_class_body body).1 (parse_class_body body).2
      true.
Proof.
  unfold class_of_body. simpl head. simpl tail.
  rewrite bool_decide_eq_true_2 by done.
  by destruct (parse_class_body body).
Qed.

(** X10: a body [low-high] makes a class that accepts exactly the
    characters whose code point lies between those of [low] and [high],
    both included; when [high] comes before [low] it accepts no
    character. *)
Theorem range_class_accepts_interval (low high char : ascii) :
  low ≠ "^"%char →
  ∃ class_state,
    CharacterClassState_init [low; "-"%char; high] = Return class_state
    ∧ (check_self class_state char = true
       ↔ ord low ≤ ord char ≤ ord high)
    ∧ (ord high < ord low → check_self class_state char = false).
Proof.
  intros Hlow. eexists. split.
  { apply CharacterClassState_init_class_of_body. }
  rewrite class_of_body_plain by (simpl; congruence).
  rewrite parse_class_body_range. simpl.
  rewrite orb_false_r.
  assert (in_range char (low, high) = true ↔ ord low ≤ ord char ≤ ord high)
    as Hrange.
  { unfold in_range. simpl. rewrite andb_true_iff, !Nat.leb_le. done. }
  destruct (in_range char (low, high)) eqn:Hin; simpl.
  - assert (ord low ≤ ord char ≤ ord high) as Hle by by apply Hrange.
    split; [done|]. intros Hrev. lia.
  - case_bool_decide as Hempty; [set_solver|].
    split; [|done]. split; [done|]. intros Hle. by apply Hrange in Hle.
Qed.

Lemma range_class_accepts_interval_witness :
  "z"%char ≠ "^"%char
  ∧ ∃ class_state,
      CharacterClassState_init ["z"%char; "-"%char; "a"%char]
      = Return class_state
      ∧ (check_self class_state "m" = true
         ↔ ord "z" ≤ ord "m" ≤ ord "a")
      ∧ (ord "a" < ord "z" → check_self class_state "m" = false).
Proof.
  assert ("z"%char ≠ "^"%char) as Hlow by discriminate.
  split; [exact Hlow|].
  exact (range_class_accepts_interval "z" "a" "m" Hlow).
Defined.

(** X11: negation is complement: for a body that does not begin with
    [^], the class of [^body] accepts exactly the characters that the
    class of [body] rejects. *)
Theorem negated_class_is_complement (body : list ascii) (char : ascii) :
  head body ≠ Some "^"%char →
  ∃ class_state negated_state,
    CharacterClassState_init body = Return class_state
    ∧ CharacterClassState_init ("^"%char :: body) = Return negated_state
    ∧ check_self negated_state char = negb (check_self class_state char).
Proof.
  intros Hhead. do 2 eexists. split_and!.
  - apply CharacterClassState_init_class_of_body.
  - apply CharacterClassState_init_class_of_body.
  - rewrite (class_of_body_plain body) by done.
    rewrite class_of_body_negated, !check_self_class.
    by destruct (existsb _ _ || bool_decide _).
Qed.

Lemma negated_class_is_complement_witness :
  head ["0"%char; "-"%char; "9"%char] ≠ Some "^"%char
  ∧ ∃ class_state negated_state,
      CharacterClassState_init ["0"%char; "-"%char; "9"%char]
      = Return class_state
      ∧ CharacterClassState_init ["^"%char; "0"%char; "-"%char; "9"%char]
        = Return negated_state
      ∧ check_self negated_state "5"
        = negb (check_self class_state "5").
Proof.
  assert (head ["0"%char; "-"%char; "9"%char] ≠ Some "^"%char) as Hhead
    by discriminate.
  split; [exact Hhead|].
  exact (negated_class_is_complement ["0"%char; "-"%char; "9"%char] "5"
           Hhead).
Defined.

Lemma parse_class_body_no_dash (body : list ascii) :
  "-"%char ∉ body →
  parse_class_body body = ([], list_to_set body).
Proof.
  induction body as [|c body IH]; intros Hdash; [done|].
  rewrite parse_class_body_single.
  - rewrite IH by set_solver. simpl. done.
  - intros e rest' ->. set_solver.
Qed.

(** X12: a body without [-] that does not begin with [^] makes a class
    that accepts exactly the characters written in the body. *)
Theorem list_class_accepts_members (body : list ascii) (char : ascii) :
  head body ≠ Some "^"%char →
  "-"%char ∉ body →
  ∃ class_state,
    CharacterClassState_init body = Return class_state
    ∧ (check_self class_state char = true ↔ char ∈ body).
Proof.
  intros Hhead Hdash. eexists. split.
  { apply CharacterClassState_init_class_of_body. }
  rewrite class_of_body_plain by done.
  rewrite parse_class_body_no_dash by done. simpl.
  rewrite bool_decide_eq_true, elem_of_list_to_set. done.
Qed.

Lemma list_class_accepts_members_witness :
  head ["a"%char; "b"%char; "c"%char] ≠ Some "^"%char
  ∧ "-"%char ∉ ["a"%char; "b"%char; "c"%char]
  ∧ ∃ class_state,
      CharacterClassState_init ["a"%char; "b"%char; "c"%char]
      = Return class_state
      ∧ (check_self class_state "b" = true
         ↔ "b"%char ∈ ["a"%char; "b"%char; "c"%char]).
Proof.
  assert (head ["a"%char; "b"%char; "c"%char] ≠ Some "^"%char) as Hhead
    by discriminate.
  assert ("-"%char ∉ ["a"%char; "b"%char; "c"%char]) as Hdash.
  { intros Hin. repeat (apply elem_of_cons in Hin as [Hin|Hin];
                        [discriminate Hin|]).
    by apply elem_of_nil in Hin. }
  split; [exact Hhead|]. split; [exact Hdash|].
  exact (list_class_accepts_members ["a"%char; "b"%char; "c"%char] "b"
           Hhead Hdash).
Defined.

(** ** A quantified character *)

Lemma RegexFSM_init_star (c : ascii) :
  plain_char c →
  RegexFSM_init (String c "*")
  = Return {| objects := repeat_graph StarState c; start_state := 0 |}.
Proof.
  intros (Hstar & Hplus & Hopen).
  unfold RegexFSM_init, RegexFSM_init_fuel.
  change (String.list_ascii_of_string (String c "*")) with [c; "*"%char].
  change (new [] StartState) with ([Object StartState []], 0).
  cbv iota beta.
  rewrite (bool_decide_eq_false_2 ([c; "*"%char] = [])) by done.
  rewrite (bool_decide_eq_false_2 ([c; "*"%char] = ["*"%char])) by done.
  rewrite (bool_decide_eq_false_2 ([c; "*"%char] = ["+"%char])) by done.
  rewrite (bool_decide_eq_false_2 ([c; "*"%char] !! 0 = Some "*"%char))
    by (simpl; congruence).
  rewrite (bool_decide_eq_false_2 ([c; "*"%char] !! 0 = Some "+"%char))
    by (simpl; congruence).
  cbn [orb]. simpl String.length.
  cbn [init_loop lookup list_lookup].
  rewrite init_body_literal by (done || by intros [?|?]).
  cbn [mbind outcome_bind link new fst snd].
  change (1 + 1) with 2. change (0 + 1) with 1.
  cbn [init_loop lookup list_lookup].
  rewrite init_body_star by done.
  reflexivity.
Qed.

Lemma RegexFSM_init_plus (c : ascii) :
  plain_char c →
  RegexFSM_init (String c "+")
  = Return {| objects := repeat_graph PlusState c; start_state := 0 |}.
Proof.
  intros (Hstar & Hplus & Hopen).
  unfold RegexFSM_init, RegexFSM_init_fuel.
  change (String.list_ascii_of_string (String c "+")) with [c; "+"%char].
  change (new [] StartState) with ([Object StartState []], 0).
  cbv iota beta.
  rewrite (bool_decide_eq_false_2 ([c; "+"%char] = [])) by done.
  rewrite (bool_decide_eq_false_2 ([c; "+"%char] = ["*"%char])) by done.
  rewrite (bool_decide_eq_false_2 ([c; "+"%char] = ["+"%char])) by done.
  rewrite (bool_decide_eq_false_2 ([c; "+"%char] !! 0 = Some "*"%char))
    by (simpl; congruence).
  rewrite (bool_decide_eq_false_2 ([c; "+"%char] !! 0 = Some "+"%char))
    by (simpl; congruence).
  cbn [orb]. simpl String.length.
  cbn [init_loop lookup list_lookup].
  rewrite init_body_literal by (done || by intros [?|?]).
  cbn [mbind outcome_bind link new fst snd].
  change (0 + 1) with 1.
  cbn [init_loop lookup list_lookup].
  rewrite init_body_plus by done.
  reflexivity.
Qed.

Section RepeatGraph.

Variable set_order : list ref → list ref.
Hypothesis set_order_valid : valid_order set_order.

Variable wrap : state → state.
Hypothesis wrap_repeat : wrap = StarState ∨ wrap = PlusState.

Variable c : ascii.

Lemma repeat_graph_next x :
  next_states (repeat_graph wrap c !!! x)
  = match x with 0 => [2] | 2 => [2; 3] | _ => [] end.
Proof. by destruct x as [|[|[|[|x]]]]. Qed.

Lemma repeat_graph_cls x :
  cls (repeat_graph wrap c !!! x)
  = match x with
    | 1 => literal_state c
    | 2 => wrap (literal_state c)
    | 3 => TerminationState
    | _ => StartState
    end.
Proof. by destruct x as [|[|[|[|x]]]]. Qed.

Lemma repeat_graph_check_self y d :
  check_self (cls (repeat_graph wrap c !!! y)) d
  = match y with
    | 1 | 2 => check_self (literal_state c) d
    | _ => false
    end.
Proof.
  rewrite repeat_graph_cls.
  destruct y as [|[|[|[|y]]]]; try done.
  by destruct wrap_repeat as [-> | ->].
Qed.

Lemma repeat_graph_termination_successor x :
  has_termination_successor (repeat_graph wrap c) x ↔ x = 2.
Proof.
  unfold has_termination_successor. setoid_rewrite repeat_graph_next.
  setoid_rewrite repeat_graph_cls. split.
  - intros (y & Hy & Hterm).
    destruct x as [|[|[|x]]]; try by apply elem_of_nil in Hy.
    + apply list_elem_of_singleton in Hy as ->.
      by destruct wrap_repeat as [-> | ->].
    + done.
  - intros ->. exists 3. split; [|done].
    apply list_elem_of_further, list_elem_of_here.
Qed.

Lemma repeat_graph_step (current : gset ref) d :
  step set_order (repeat_graph wrap c) current d
  = if check_self (literal_state c) d
       && bool_decide (0 ∈ current ∨ 2 ∈ current)
    then {[2]} else ∅.
Proof.
  apply set_eq. intros y.
  rewrite (elem_of_step set_order set_order_valid).
  setoid_rewrite repeat_graph_next. setoid_rewrite repeat_graph_check_self.
  split.
  - intros (x & Hx & Hy & Hacc).
    assert (y = 2 ∧ (x = 0 ∨ x = 2)) as [-> Hx'].
    { destruct x as [|[|[|x]]]; try by apply elem_of_nil in Hy.
      - apply list_elem_of_singleton in Hy. auto.
      - apply elem_of_cons in Hy as [->|Hy]; [auto|].
        apply list_elem_of_singleton in Hy as ->. done. }
    destruct (check_self (literal_state c) d); [|done].
    rewrite bool_decide_eq_true_2 by (destruct Hx' as [-> | ->]; auto).
    by apply elem_of_singleton.
  - destruct (check_self (literal_state c) d) eqn:Hacc; [|set_solver].
    case_bool_decide as Hcur; [|set_solver]. simpl.
    intros ->%elem_of_singleton.
    destruct Hcur as [H0|H2].
    + exists 0. split_and!; [done| |done]. by apply list_elem_of_singleton.
    + exists 2. split_and!; [done| |done]. apply list_elem_of_here.
Qed.

Lemma repeat_graph_edges : edges (repeat_graph wrap c) = 3.
Proof. reflexivity. Qed.

End RepeatGraph.

Section StarGraph.

Variable set_order : list ref → list ref.
Hypothesis set_order_valid : valid_order set_order.

Variable c : ascii.

Lemma star_graph_reach (states : gset ref) x :
  eps_reach (repeat_graph StarState c) states x
  ↔ x ∈ states ∨ (x = 2 ∧ (0 ∈ states ∨ 2 ∈ states)).
Proof.
  split.
  - induction 1 as [x Hx|x y _ IH Hy Hstar]; [by left|].
    rewrite repeat_graph_next in Hy. rewrite repeat_graph_cls in Hstar.
    assert (y = 2) as ->.
    { destruct y as [|[|[|[|y]]]]; try done.
      unfold literal_state in Hstar. by case_bool_decide. }
    right. split; [done|].
    destruct x as [|[|[|x]]]; try by apply elem_of_nil in Hy.
    + destruct IH as [?|[? _]]; [by left|done].
    + destruct IH as [?|[_ ?]]; [by right|done].
  - intros [Hx|[-> [H0|H2]]]; [by constructor| |by constructor].
    apply (eps_reach_star _ _ 0 2); [by constructor| |done].
    by apply list_elem_of_singleton.
Qed.

Lemma star_graph_closure fuel (states : gset ref) :
  size states + 3 < fuel →
  0 ∈ states ∨ 2 ∈ states →
  _add_epsilon_transitions set_order fuel (repeat_graph StarState c) states
  = Return ({[2]} ∪ states).
Proof.
  intros Hfuel Hcur.
  destruct (add_epsilon_transitions_reach set_order set_order_valid
              (repeat_graph StarState c) fuel states)
    as (res & -> & Hres); [by rewrite repeat_graph_edges|].
  f_equal. apply set_eq. intros x. rewrite Hres, star_graph_reach.
  set_solver.
Qed.

Lemma star_graph_can_terminate fuel (states : gset ref) :
  size states + 3 < fuel →
  0 ∈ states ∨ 2 ∈ states →
  _can_terminate_without_input set_order fuel (repeat_graph StarState c)
    states = Return true.
Proof.
  intros Hfuel Hcur.
  destruct (can_terminate_reach set_order set_order_valid
              (repeat_graph StarState c) fuel states)
    as (b & -> & Hb); [by rewrite repeat_graph_edges|].
  f_equal. apply Hb. exists 2. split.
  - apply star_graph_reach. auto.
  - by apply (repeat_graph_termination_successor StarState); [left|].
Qed.

Lemma star_graph_run fuel input (current : gset ref) :
  8 ≤ fuel →
  current ⊆ {[0; 2]} →
  0 ∈ current ∨ 2 ∈ current →
  run set_order fuel (repeat_graph StarState c) current input
  = Return (forallb (check_self (literal_state c)) input).
Proof.
  intros Hfuel. revert current.
  assert (∀ s : gset ref, s ⊆ {[0; 2]} → size s + 3 < fuel) as Hsize.
  { intros s Hs. apply subseteq_size in Hs.
    rewrite size_union, !size_singleton in Hs by set_solver. lia. }
  induction input as [|d input IH]; intros current Hsub Hcur; simpl.
  - apply star_graph_can_terminate; auto.
  - rewrite (repeat_graph_step set_order set_order_valid StarState)
      by by left.
    rewrite (bool_decide_eq_true_2 (0 ∈ current ∨ 2 ∈ current)) by done.
    rewrite andb_true_r.
    destruct (check_self (literal_state c) d); [|done].
    rewrite bool_decide_eq_false_2 by set_solver.
    rewrite star_graph_closure; [|apply Hsize; set_solver|set_solver].
    cbn [mbind outcome_bind andb].
    apply IH; set_solver.
Qed.

End StarGraph.

(** X13: for a character [c] other than [*], [+] and [[], the pattern
    [c*] compiles, and its machine accepts exactly the strings all of
    whose characters are [c] (every string when [c] is [.]), the empty
    string included. *)
Theorem star_pattern_language set_order (c : ascii) :
  valid_order set_order →
  plain_char c →
  ∃ self,
    RegexFSM_init (String c "*") = Return self
    ∧ ∀ input_str : string,
        ∃ b, check_string set_order self (Some input_str) = Return b
             ∧ (b = true
                ↔ Forall (λ d, c = "."%char ∨ c = d)
                         (String.list_ascii_of_string input_str)).
Proof.
  intros Horder Hplain. eexists. split; [by apply RegexFSM_init_star|].
  intros input_str.
  exists (forallb (check_self (literal_state c))
                  (String.list_ascii_of_string input_str)).
  split.
  - unfold check_string, check_string_fuel, fuel_bound.
    cbn [objects start_state].
    rewrite (repeat_graph_edges StarState).
    rewrite (star_graph_closure set_order Horder);
      [|rewrite size_singleton; lia|set_solver].
    cbn [mbind outcome_bind].
    rewrite <- (star_graph_run set_order Horder c (2 * 3 + 2)
                  (String.list_ascii_of_string input_str) ({[2]} ∪ {[0]}))
      by (lia || set_solver).
    case_bool_decide as Hempty; [by subst input_str|done].
  - rewrite forallb_forall, Forall_forall.
    setoid_rewrite check_self_literal_state.
    setoid_rewrite orb_true_iff. setoid_rewrite bool_decide_eq_true.
    by setoid_rewrite list_elem_of_In.
Qed.

Lemma star_pattern_language_witness :
  valid_order id
  ∧ plain_char "a"
  ∧ ∃ self,
      RegexFSM_init (String "a" "*") = Return self
      ∧ ∀ input_str : string,
          ∃ b, check_string id self (Some input_str) = Return b
               ∧ (b = true
                  ↔ Forall (λ d, "a"%char = "."%char ∨ "a"%char = d)
                           (String.list_ascii_of_string input_str)).
Proof.
  assert (plain_char "a") as Hplain by (by split_and!).
  split; [exact valid_order_id|]. split; [exact Hplain|].
  exact (star_pattern_language id "a" valid_order_id Hplain).
Defined.

Section PlusGraph.

Variable set_order : list ref → list ref.
Hypothesis set_order_valid : valid_order set_order.

Variable c : ascii.

Lemma plus_graph_no_star y :
  is_StarState (cls (repeat_graph PlusState c !!! y)) = false.
Proof.
  rewrite repeat_graph_cls. destruct y as [|[|[|[|y]]]]; try done.
  unfold literal_state. by case_bool_decide.
Qed.

Lemma plus_graph_run fuel input :
  8 ≤ fuel →
  run set_order fuel (repeat_graph PlusState c) {[2]} input
  = Return (forallb (check_self (literal_state c)) input).
Proof.
  intros Hfuel.
  assert (size ({[2]} : gset ref) + edges (repeat_graph PlusState c) < fuel)
    as Hsize.
  { rewrite size_singleton, (repeat_graph_edges PlusState). lia. }
  induction input as [|d input IH]; simpl.
  - destruct (can_terminate_no_star set_order set_order_valid _
                plus_graph_no_star fuel {[2]} Hsize) as (b & -> & Hb).
    f_equal. apply Hb. exists 2. split; [set_solver|].
    by apply (repeat_graph_termination_successor PlusState); [right|].
  - rewrite (repeat_graph_step set_order set_order_valid PlusState)
      by by right.
    rewrite (bool_decide_eq_true_2 (0 ∈ _ ∨ 2 ∈ _)) by set_solver.
    rewrite andb_true_r.
    destruct (check_self (literal_state c) d); [|done].
    rewrite bool_decide_eq_false_2 by set_solver.
    rewrite (add_epsilon_transitions_no_star set_order set_order_valid _
               plus_graph_no_star) by done.
    cbn [mbind outcome_bind andb]. apply IH.
Qed.

End PlusGraph.

(** X14: for a character [c] other than [*], [+] and [[], the pattern
    [c+] compiles, and its machine accepts exactly the non-empty strings
    all of whose characters are [c] (every non-empty string when [c] is
    [.]). *)
Theorem plus_pattern_language set_order (c : ascii) :
  valid_order set_order →
  plain_char c →
  ∃ self,
    RegexFSM_init (String c "+") = Return self
    ∧ ∀ input_str : string,
        ∃ b, check_string set_order self (Some input_str) = Return b
             ∧ (b = true
                ↔ input_str ≠ ""
                  ∧ Forall (λ d, c = "."%char ∨ c = d)
                           (String.list_ascii_of_string input_str)).
Proof.
  intros Horder Hplain. eexists. split; [by apply RegexFSM_init_plus|].
  intros input_str.
  assert (∀ input : list ascii,
            forallb (check_self (literal_state c)) input = true
            ↔ Forall (λ d, c = "."%char ∨ c = d) input) as Hall.
  { intros input. rewrite forallb_forall, Forall_forall.
    setoid_rewrite check_self_literal_state.
    setoid_rewrite orb_true_iff. setoid_rewrite bool_decide_eq_true.
    by setoid_rewrite list_elem_of_In. }
  unfold check_string, check_string_fuel, fuel_bound.
  cbn [objects start_state].
  rewrite (repeat_graph_edges PlusState).
  rewrite (add_epsilon_transitions_no_star set_order Horder _
             (plus_graph_no_star c))
    by (rewrite size_singleton, (repeat_graph_edges PlusState); lia).
  cbn [mbind outcome_bind].
  destruct input_str as [|d input_str].
  - rewrite bool_decide_eq_true_2 by done.
    destruct (can_terminate_no_star set_order Horder _
                (plus_graph_no_star c) (2 * 3 + 2) {[0]})
      as (b & -> & Hb).
    { rewrite size_singleton, (repeat_graph_edges PlusState). lia. }
    exists b. split; [done|]. rewrite Hb. split; [|by intros [? _]].
    intros (x & ->%elem_of_singleton & Hterm). exfalso.
    by apply (repeat_graph_termination_successor PlusState) in Hterm;
      [|right].
  - rewrite bool_decide_eq_false_2 by done.
    change (String.list_ascii_of_string (String d input_str))
      with (d :: String.list_ascii_of_string input_str).
    cbn [run].
    rewrite (repeat_graph_step set_order Horder PlusState) by by right.
    rewrite (bool_decide_eq_true_2 (0 ∈ _ ∨ 2 ∈ _)) by set_solver.
    rewrite andb_true_r.
    destruct (check_self (literal_state c) d) eqn:Hd.
    + rewrite bool_decide_eq_false_2 by set_solver.
      rewrite (add_epsilon_transitions_no_star set_order Horder _
                 (plus_graph_no_star c))
        by (rewrite size_singleton, (repeat_graph_edges PlusState); lia).
      cbn [mbind outcome_bind].
      rewrite (plus_graph_run set_order Horder) by lia.
      eexists. split; [done|]. rewrite <- Hall. simpl. rewrite Hd.
      split; [done|by intros [_ ?]].
    + rewrite bool_decide_eq_true_2 by done.
      exists false. split; [done|]. split; [done|].
      intros [_ Hf]. apply Hall in Hf. simpl in Hf. by rewrite Hd in Hf.
Qed.

Lemma plus_pattern_language_witness :
  valid_order id
  ∧ plain_char "a"
  ∧ ∃ self,
      RegexFSM_init (String "a" "+") = Return self
      ∧ ∀ input_str : string,
          ∃ b, check_string id self (Some input_str) = Return b
               ∧ (b = true
                  ↔ input_str ≠ ""
                    ∧ Forall (λ d, "a"%char = "."%char ∨ "a"%char = d)
                             (String.list_ascii_of_string input_str)).
Proof.
  assert (plain_char "a") as Hplain by (by split_and!).
  split; [exact valid_order_id|]. split; [exact Hplain|].
  exact (plus_pattern_language id "a" valid_order_id Hplain).
Defined.

(** ** The path from the start object to the termination object *)

Lemma linked_snoc (h : list object) path a b :
  last path = Some a →
  linked h path →
  b ∈ next_states (h !!! a) →
  linked h (path ++ [b]).
Proof.
  intros Hlast Hpath Hb k x y Hx Hy.
  pose proof (lookup_lt_Some _ _ _ Hy) as Hk.
  rewrite length_app in Hk. simpl in Hk.
  destruct (decide (S k < length path)) as [Hlt|Hge].
  - rewrite lookup_app_l in Hx, Hy by lia. by eapply Hpath.
  - assert (S k = length path) as Hlen by lia.
    rewrite lookup_app_l in Hx by lia.
    rewrite Hlen, list_lookup_middle in Hy by done. injection Hy as <-.
    rewrite last_lookup, <- Hlen in Hlast. simpl in Hlast.
    by assert (x = a) as -> by congruence.
Qed.

Lemma linked_prefix (h : list object) path b :
  linked h (path ++ [b]) → linked h path.
Proof.
  intros Hpath k x y Hx Hy.
  apply (Hpath k); by apply lookup_app_l_Some.
Qed.

Lemma linked_rtc (h : list object) path a z :
  head path = Some a → last path = Some z → linked h path →
  rtc (λ x y, y ∈ next_states (h !!! x)) a z.
Proof.
  revert a. induction path as [|x path IH]; intros a Hhead Hlast Hpath;
    [done|].
  injection Hhead as ->. destruct path as [|b path].
  - injection Hlast as ->. done.
  - apply (rtc_l _ _ b).
    + by apply (Hpath 0).
    + apply IH; [done|by rewrite last_cons_cons in Hlast|].
      intros k x y Hx Hy. by apply (Hpath (S k)).
Qed.

Lemma last_start_states start_state (states : list ref) :
  last (start_state :: states) = Some (last_of start_state states).
Proof.
  unfold last_of. destruct states as [|r states] using rev_ind.
  - done.
  - rewrite app_comm_cons, last_snoc, from_end_snoc.
    rewrite bool_decide_eq_true_2; [done|]. by destruct states.
Qed.

Lemma next_states_link start_state (h : list object) states c j :
  j < length h →
  next_states ((link start_state h states c).1 !!! j)
  = if bool_decide (j = last_of start_state states)
    then next_states (h !!! j) ++ [length h]
    else next_states (h !!! j).
Proof.
  intros Hj.
  change (link start_state h states c).1
    with (append_next (new h c).1 (last_of start_state states) (length h)).
  rewrite next_states_append_next, lookup_total_new, length_new.
  rewrite (bool_decide_eq_false_2 (j = length h)) by lia.
  destruct (decide (j = last_of start_state states)) as [<-|Hne].
  - rewrite (bool_decide_eq_true_2 (j = j ∧ _)) by (split; [done|lia]).
    by rewrite (bool_decide_eq_true_2 (j = j)).
  - rewrite (bool_decide_eq_false_2 (_ = j ∧ _)) by (intros [? _]; done).
    by rewrite (bool_decide_eq_false_2 (j = _)).
Qed.

Lemma next_states_quantify wrap start_state (h : list object) states j :
  j < length h →
  next_states ((quantify wrap start_state h states).1 !!! j)
  = if bool_decide (j = parent_of start_state states)
    then filter (λ s, s ≠ from_end states 1) (next_states (h !!! j))
         ++ [length h]
    else next_states (h !!! j).
Proof.
  intros Hj.
  set (P := parent_of start_state states).
  set (q := wrap (cls (h !!! from_end states 1))).
  change (quantify wrap start_state h states).1
    with (append_next
            (append_next
               (remove_next (new h q).1 P (from_end states 1)) P (length h))
            (length h) (length h)).
  rewrite !next_states_append_next, next_states_remove_next.
  rewrite lookup_total_new, !length_append_next, length_remove_next,
    length_new.
  rewrite (bool_decide_eq_false_2 (j = length h)) by lia.
  rewrite (bool_decide_eq_false_2 (length h = j ∧ _))
    by (intros [? _]; lia).
  destruct (decide (j = P)) as [<-|Hne].
  - rewrite !(bool_decide_eq_true_2 (j = j ∧ _)) by (split; [done|lia]).
    by rewrite (bool_decide_eq_true_2 (j = j)).
  - rewrite !(bool_decide_eq_false_2 (P = j ∧ _)) by (intros [? _]; done).
    by rewrite (bool_decide_eq_false_2 (j = P)).
Qed.

Lemma path_inv_link start_state (h : list object) states c :
  path_inv start_state h states →
  path_inv start_state (link start_state h states c).1
                       (link start_state h states c).2.
Proof.
  intros (Hnodup & Hbound & Hpath).
  assert ((link start_state h states c).2 = states ++ [length h]) as ->
    by done.
  unfold path_inv. rewrite app_comm_cons.
  pose proof (last_start_states start_state states) as Hlast.
  assert (last_of start_state states < length h) as HL.
  { apply last_Some_elem_of in Hlast.
    by apply (proj1 (Forall_forall _ _) Hbound). }
  split_and!.
  - apply NoDup_app. split_and!; [done| |apply NoDup_singleton].
    intros x Hx [= ->]%list_elem_of_singleton.
    apply (proj1 (Forall_forall _ _) Hbound) in Hx. lia.
  - rewrite length_link. apply Forall_app. split.
    + eapply Forall_impl; [done|]. simpl. lia.
    + apply Forall_singleton. lia.
  - apply (linked_snoc _ _ (last_of start_state states)); [done| |].
    + intros k a b Ha Hb.
      assert (a < length h) as Hlt.
      { apply (proj1 (Forall_forall _ _) Hbound).
        by eapply list_elem_of_lookup_2. }
      rewrite next_states_link by done.
      specialize (Hpath k a b Ha Hb). case_bool_decide; set_solver.
    + rewrite next_states_link by done.
      rewrite bool_decide_eq_true_2 by done. set_solver.
Qed.

Lemma path_inv_quantify wrap start_state (h : list object) states :
  states ≠ [] →
  path_inv start_state h states →
  path_inv start_state (quantify wrap start_state h states).1
                       (quantify wrap start_state h states).2.
Proof.
  intros Hne (Hnodup & Hbound & Hpath).
  destruct states as [|prev init _] using rev_ind; [done|].
  clear Hne.
  assert ((quantify wrap start_state h (init ++ [prev])).2
          = init ++ [length h]) as ->.
  { unfold quantify. cbn [snd]. rewrite length_app. simpl.
    replace (length init + 1 - 1) with (length init + 0) by lia.
    by rewrite insert_app_r. }
  rewrite app_comm_cons in Hnodup, Hbound, Hpath.
  unfold path_inv. rewrite app_comm_cons.
  apply NoDup_app in Hnodup as (Hnodup & Hfresh & _).
  apply Forall_app in Hbound as [Hbound Hprev].
  pose proof (last_start_states start_state init) as Hlast.
  assert (parent_of start_state (init ++ [prev])
          = last_of start_state init) as HP by apply parent_of_snoc.
  assert (last_of start_state init < length h) as HL.
  { apply last_Some_elem_of in Hlast.
    by apply (proj1 (Forall_forall _ _) Hbound). }
  split_and!.
  - apply NoDup_app. split_and!; [done| |apply NoDup_singleton].
    intros x Hx [= ->]%list_elem_of_singleton.
    apply (proj1 (Forall_forall _ _) Hbound) in Hx. lia.
  - rewrite length_quantify. apply Forall_app. split.
    + eapply Forall_impl; [done|]. simpl. lia.
    + apply Forall_singleton. lia.
  - apply (linked_snoc _ _ (last_of start_state init)); [done| |].
    + intros k a b Ha Hb.
      assert (a < length h) as Hlt.
      { apply (proj1 (Forall_forall _ _) Hbound).
        by eapply list_elem_of_lookup_2. }
      assert (b ≠ prev) as Hb'.
      { intros ->. apply (Hfresh prev); [|set_solver].
        by eapply list_elem_of_lookup_2. }
      rewrite next_states_quantify by done.
      rewrite HP, from_end_snoc.
      pose proof (linked_prefix _ _ _ Hpath k a b Ha Hb) as Hin.
      case_bool_decide; [|done].
      apply elem_of_app. left. by apply list_elem_of_filter.
    + rewrite next_states_quantify by done.
      rewrite HP, bool_decide_eq_true_2 by done. set_solver.
Qed.

Lemma path_inv_steps regex_expr start_state a b :
  rtc (compile_step regex_expr start_state) a b →
  path_inv start_state a.1.1 a.1.2 → path_inv start_state b.1.1 b.1.2.
Proof.
  induction 1 as [|a b c Hstep _ IH]; [done|].
  intros Ha. apply IH. clear IH.
  destruct Hstep; cbn [fst snd] in *.
  - by apply path_inv_quantify.
  - by apply path_inv_quantify.
  - by apply path_inv_link.
  - by apply path_inv_link.
Qed.

(** X15: in a compiled graph the termination object can be reached from
    the start object by following [next_states]. *)
Theorem termination_reachable_from_start (regex_expr : string)
    (self : RegexFSM) :
  RegexFSM_init regex_expr = Return self →
  ∃ termination,
    objects self !! termination = Some (Object TerminationState [])
    ∧ rtc (λ x y, y ∈ next_states (objects self !!! x))
          (start_state self) termination.
Proof.
  intros Hself.
  destruct (RegexFSM_init_cases regex_expr)
    as [[_ [msg Hmsg]]|[_ (h & states & Hsteps & Hret)]]; [congruence|].
  assert (self = {| objects := finish 0 h states; start_state := 0 |})
    as -> by congruence.
  cbn [objects start_state].
  assert (path_inv 0 h states) as (Hnodup & Hbound & Hpath).
  { apply (path_inv_steps _ _ _ _ Hsteps). simpl. split_and!.
    - apply NoDup_singleton.
    - apply Forall_singleton. simpl. lia.
    - intros [|k] a b Ha Hb; done. }
  pose proof (last_start_states 0 states) as Hlast.
  assert (last_of 0 states < length h) as HL.
  { apply last_Some_elem_of in Hlast.
    by apply (proj1 (Forall_forall _ _) Hbound). }
  assert (finish 0 h states
          = append_next (new h TerminationState).1 (last_of 0 states)
              (length h)) as Hfinish.
  { unfold finish, last_of. simpl. by case_bool_decide. }
  rewrite Hfinish. clear Hfinish.
  assert (∀ j, j < length h →
               next_states
                 (append_next (new h TerminationState).1 (last_of 0 states)
                    (length h) !!! j)
               = if bool_decide (j = last_of 0 states)
                 then next_states (h !!! j) ++ [length h]
                 else next_states (h !!! j)) as Hnext.
  { intros j Hj. rewrite next_states_append_next, lookup_total_new, length_new.
    rewrite (bool_decide_eq_false_2 (j = length h)) by lia.
    destruct (decide (j = last_of 0 states)) as [<-|Hne].
    - rewrite (bool_decide_eq_true_2 (j = j ∧ _)) by (split; [done|lia]).
      by rewrite (bool_decide_eq_true_2 (j = j)).
    - rewrite (bool_decide_eq_false_2 (_ = j ∧ _)) by (intros [? _]; done).
      by rewrite (bool_decide_eq_false_2 (j = _)). }
  exists (length h). split.
  - unfold append_next, new. cbn [fst].
    rewrite list_lookup_alter_ne by lia. by rewrite list_lookup_middle.
  - apply (linked_rtc _ ((0 :: states) ++ [length h]));
      [done|apply last_snoc|].
    apply (linked_snoc _ _ (last_of 0 states)); [done| |].
    + intros k a b Ha Hb.
      assert (a < length h) as Hlt.
      { apply (proj1 (Forall_forall _ _) Hbound).
        by eapply list_elem_of_lookup_2. }
      rewrite Hnext by done. specialize (Hpath k a b Ha Hb).
      case_bool_decide; set_solver.
    + rewrite Hnext by done. rewrite bool_decide_eq_true_2 by done.
      set_solver.
Qed.

Lemma termination_reachable_from_start_witness :
  RegexFSM_init "a*" = Return a_star_fsm
  ∧ ∃ termination,
      objects a_star_fsm !! termination = Some (Object TerminationState [])
      ∧ rtc (λ x y, y ∈ next_states (objects a_star_fsm !!! x))
            (start_state a_star_fsm) termination.
Proof.
  split; [reflexivity|].
  exact (termination_reachable_from_start "a*" a_star_fsm eq_refl).
Defined.
